(** * pmtools: pagination, fan-out and manifest rewriting

    A shallow embedding of [lib/githubapihelper.js], [lib/githelper.js],
    [lib/child-process.js] and of the workspace commands of the [pmtool]
    script, followed by the properties of the pagination / fan-out /
    grouping layer, of the local git helpers and of the commands built
    on them.

    Conventions of the embedding.
    - JavaScript values are the inductive [JS.jsval]; truthiness,
      [String(v)] and [a || b] are written out.
    - A plain object used as a dictionary is a [JS.pobj]: its own
      properties in enumeration order (array-index keys in ascending
      numeric order, then the other keys in creation order).
    - A promise is represented by the state it finally reaches
      ([Q.promise]): pending for ever, fulfilled or rejected.  A deferred
      is settled by the first [resolve] / [reject] that reaches it.
    - Console output, calls into the GitHub client, child processes and
      file reads and writes are recorded in a trace ([Eff.W]); what
      concurrent calls print is listed in the order in which the calls
      were made.
    - The GitHub client, [child_process.exec], [fs] and [JSON.parse] are
      oracles (Section variables) that fix the answer each request
      receives during one operation: the functions are verified for
      every behaviour of these collaborators.  Where the order in which
      concurrent requests complete matters ([Q.all]) it is a parameter,
      [sched].

    Of the [pmtool] script the commands [checkout-workspace] and
    [reset-workspace] and the helper [issueShortForm] are embedded.  The
    other commands read nested properties of the answers ([repo.owner.login],
    [event.repo.name]), look keys up through the prototype chain
    ([tagIndex[label.name]], [statusMap[key]]) or run the same command
    twice in one directory ([make-release-branch]); they are left
    out. *)

From Stdlib Require Import ZArith Ascii String DecimalString.
From stdpp Require Import base list strings.

Open Scope string_scope.
Open Scope list_scope.

(* ================================================================== *)
(** ** JavaScript values *)
(* ================================================================== *)

Module JS.

(** The values that flow through the helpers.  [JErr] is an [Error]
    object with its message, [JObj] a plain object as produced by
    [JSON.parse] (own properties in order).  Numbers are the integers;
    [JNaN] is kept apart because it is falsy. *)
#[warnings="-register-all"]
Inductive jsval : Type :=
| JUndefined
| JNull
| JBool (b : bool)
| JNum (n : Z)
| JNaN
| JStr (s : string)
| JErr (message : string)
| JObj (fields : list (string * jsval)).

(** [!!v] *)
Definition truthy (v : jsval) : bool :=
  match v with
  | JUndefined | JNull | JNaN => false
  | JBool b => b
  | JNum n => negb (n =? 0)%Z
  | JStr s => negb (String.eqb s "")
  | JErr _ | JObj _ => true
  end.

Definition falsy (v : jsval) : bool := negb (truthy v).

(** [a || b] *)
Definition js_or (a b : jsval) : jsval := if truthy a then a else b.

(** [String(v)], the coercion applied by [+] with a string operand and
    by a property access [o[v]]. *)
Definition to_string (v : jsval) : string :=
  match v with
  | JUndefined => "undefined"
  | JNull => "null"
  | JBool true => "true"
  | JBool false => "false"
  | JNum n => NilZero.string_of_int (Z.to_int n)
  | JNaN => "NaN"
  | JStr s => s
  | JErr m => "Error: " +:+ m
  | JObj _ => "[object Object]"
  end.

(** [a === b] on primitives.  Two objects are only identical when they
    are the same reference, which never holds between an argument and a
    value freshly parsed from a response. *)
Definition strict_eq (a b : jsval) : bool :=
  match a, b with
  | JUndefined, JUndefined | JNull, JNull => true
  | JBool x, JBool y => Bool.eqb x y
  | JNum x, JNum y => (x =? y)%Z
  | JStr x, JStr y => String.eqb x y
  | _, _ => false
  end.

(** [_.has(v, key)]: [key] is an own property of [v]. *)
Definition has (v : jsval) (key : string) : bool :=
  match v with
  | JObj fs => existsb (fun kv => String.eqb (fst kv) key) fs
  | _ => false
  end.

(** [v.key] for a value that is not [null] / [undefined]. *)
Definition get (v : jsval) (key : string) : jsval :=
  match v with
  | JObj fs =>
      match find (fun kv => String.eqb (fst kv) key) fs with
      | Some kv => snd kv
      | None => JUndefined
      end
  | JErr m => if String.eqb key "message" then JStr m else JUndefined
  | _ => JUndefined
  end.

(** *** Objects used as dictionaries *)

(** Own enumerable string-keyed properties, in the order [Object.keys]
    (and so [_.forEach]) visits them. *)
Definition pobj (V : Type) : Type := list (string * V).

Definition is_digit (c : ascii) : bool :=
  (48 <=? N_of_ascii c)%N && (N_of_ascii c <=? 57)%N.

Fixpoint digits_value (acc : N) (cs : list ascii) : option N :=
  match cs with
  | [] => Some acc
  | c :: cs' =>
      if is_digit c
      then digits_value (10 * acc + (N_of_ascii c - 48))%N cs'
      else None
  end.

(** A property name is an array index when it is the canonical decimal
    form of an integer in [0, 2^32 - 2]. *)
Definition array_index (k : string) : option N :=
  match list_ascii_of_string k with
  | [] => None
  | c :: cs =>
      if (N_of_ascii c =? 48)%N && negb (length cs =? 0)%nat then None
      else
        match digits_value 0 (c :: cs) with
        | Some n => if (n <? 4294967295)%N then Some n else None
        | None => None
        end
  end.

Section Pobj.
Context {V : Type}.

Definition pobj_keys (o : pobj V) : list string := map fst o.

(** [hasOwnProperty] *)
Definition pobj_has (o : pobj V) (k : string) : bool :=
  existsb (fun kv => String.eqb (fst kv) k) o.

Definition pobj_get (o : pobj V) (k : string) : option V :=
  snd <$> find (fun kv => String.eqb (fst kv) k) o.

(** Overwrite the value of an existing own property; its place in the
    enumeration order is kept. *)
Fixpoint pobj_replace (k : string) (f : V -> V) (o : pobj V) : pobj V :=
  match o with
  | [] => []
  | (k', v') :: o' =>
      if String.eqb k' k then (k', f v') :: o'
      else (k', v') :: pobj_replace k f o'
  end.

(** Create an array-index property: it goes after the smaller indices
    and before everything else. *)
Fixpoint pobj_insert_index (n : N) (k : string) (v : V) (o : pobj V)
  : pobj V :=
  match o with
  | [] => [(k, v)]
  | (k', v') :: o' =>
      match array_index k' with
      | Some n' =>
          if (n' <? n)%N then (k', v') :: pobj_insert_index n k v o'
          else (k, v) :: o
      | None => (k, v) :: o
      end
  end.

(** [o[k] = v].  An own property is overwritten.  Otherwise the name
    [__proto__] reaches the accessor inherited from [Object.prototype]
    and creates no own property; an array index is enumerated in
    numeric position; any other name is appended. *)
Definition pobj_set (k : string) (v : V) (o : pobj V) : pobj V :=
  if pobj_has o k then pobj_replace k (fun _ => v) o
  else if String.eqb k "__proto__" then o
  else match array_index k with
       | Some n => pobj_insert_index n k v o
       | None => o ++ [(k, v)]
       end.
End Pobj.

(** [o[k].push(x)] for an own property [k] holding an array. *)
Definition pobj_push {A : Type} (k : string) (x : A) (o : pobj (list A))
  : pobj (list A) :=
  pobj_replace k (fun l => l ++ [x]) o.

(** [_.zipObject(props, values)]: [result[props[i]] = values[i]], the
    property name being [String(props[i])].  Every caller passes two
    arrays of equal length. *)
Definition zipObject {V : Type} (props : list jsval) (values : list V)
  : pobj V :=
  foldl (fun o kv => pobj_set (to_string (fst kv)) (snd kv) o) []
        (zip props values).

(** [_.pluck(collection, key)] *)
Definition pluck (collection : list jsval) (key : string) : list jsval :=
  map (fun v => get v key) collection.

End JS.

(* ================================================================== *)
(** ** Regular expressions (the fragment used by [githelper.js]) *)
(* ================================================================== *)

Module Regex.

(** Patterns: literals, greedy [c*] and [c+] over a character class,
    concatenation, numbered capture groups and the two anchors. *)
Inductive re : Type :=
| Bos                                (* ^ *)
| Eos                                (* $ *)
| Lit (s : string)
| Star (cls : ascii -> bool)
| Plus (cls : ascii -> bool)
| Cat (r1 r2 : re)
| Group (i : nat) (r : re).

Definition captures : Type := list (nat * list ascii).

Definition capture (i : nat) (c : captures) : option (list ascii) :=
  snd <$> find (fun e => Nat.eqb (fst e) i) c.

Fixpoint strip_prefix (l s : list ascii) : option (list ascii) :=
  match l, s with
  | [], _ => Some s
  | a :: l', b :: s' => if Ascii.eqb a b then strip_prefix l' s' else None
  | _ :: _, [] => None
  end.

Section Backtracking.
Context {R : Type}.

(** Greedy repetition of a class: the longest run is tried first and
    given back one character at a time while the continuation fails. *)
Fixpoint star (cls : ascii -> bool) (s : list ascii)
         (k : list ascii -> option R) : option R :=
  match s with
  | c :: s' =>
      if cls c
      then match star cls s' k with
           | Some r => Some r
           | None => k s
           end
      else k s
  | [] => k []
  end.

(** Backtracking matcher in continuation-passing style.  [whole] is
    the complete subject and [s] what is left of it. *)
Fixpoint run (whole : list ascii) (r : re) (s : list ascii) (c : captures)
         (k : list ascii -> captures -> option R) : option R :=
  match r with
  | Bos => if (length s =? length whole)%nat then k s c else None
  | Eos => match s with [] => k [] c | _ :: _ => None end
  | Lit l =>
      match strip_prefix (list_ascii_of_string l) s with
      | Some s' => k s' c
      | None => None
      end
  | Star cls => star cls s (fun s' => k s' c)
  | Plus cls =>
      match s with
      | a :: s' => if cls a then star cls s' (fun s'' => k s'' c) else None
      | [] => None
      end
  | Cat r1 r2 => run whole r1 s c (fun s' c' => run whole r2 s' c' k)
  | Group i r1 =>
      run whole r1 s c
          (fun s' c' => k s' ((i, take (length s - length s') s) :: c'))
  end.
End Backtracking.

(** Try the pattern at every start position, leftmost first. *)
Fixpoint exec_from (r : re) (whole s : list ascii) : option captures :=
  match run whole r s [] (fun _ c => Some c) with
  | Some c => Some c
  | None =>
      match s with
      | [] => None
      | _ :: s' => exec_from r whole s'
      end
  end.

(** [r.exec(subject)] for a pattern without the [g] flag: [None] is
    [null], otherwise the captures of the leftmost match. *)
Definition exec (r : re) (subject : string) : option captures :=
  exec_from r (list_ascii_of_string subject) (list_ascii_of_string subject).

(** [match[i]] for a group that took part in the match. *)
Definition group (i : nat) (m : captures) : string :=
  string_of_list_ascii (default [] (capture i m)).

(** Character classes. *)
Definition in_range (lo hi : N) (c : ascii) : bool :=
  (lo <=? N_of_ascii c)%N && (N_of_ascii c <=? hi)%N.

(** [\w] *)
Definition word (c : ascii) : bool :=
  in_range 97 122 c || in_range 65 90 c || in_range 48 57 c
  || Ascii.eqb c "_".

(** [.]: anything but a line terminator (of which U+2028 and U+2029
    lie outside the 8-bit characters of [string]). *)
Definition dot (c : ascii) : bool :=
  negb (Ascii.eqb c "010" || Ascii.eqb c "013").

Definition is_char (x : ascii) (c : ascii) : bool := Ascii.eqb c x.

End Regex.

(* ================================================================== *)
(** ** Promises (the part of the [q] library the helpers use) *)
(* ================================================================== *)

Module Q.
Import JS.

(** A promise, identified with the state it finally reaches. *)
Inductive promise (A : Type) : Type :=
| Pending
| Fulfilled (value : A)
| Rejected (reason : jsval).
Arguments Pending {A}.
Arguments Fulfilled {A} value.
Arguments Rejected {A} reason.

(** [Q.defer()] is [Pending]; [deferred.resolve] and [deferred.reject]
    only act on a deferred that is not settled yet. *)
Definition d_resolve {A : Type} (v : A) (d : promise A) : promise A :=
  match d with Pending => Fulfilled v | _ => d end.

Definition d_reject {A : Type} (e : jsval) (d : promise A) : promise A :=
  match d with Pending => Rejected e | _ => d end.

(** [Q.reject(reason)]: a promise that is rejected from the start. *)
Definition reject {A : Type} (reason : jsval) : promise A := Rejected reason.

(** The objects [Q.allSettled] resolves with:
    [{state: 'fulfilled', value}] or [{state: 'rejected', reason}]. *)
Inductive snapshot (A : Type) : Type :=
| StateFulfilled (value : A)
| StateRejected (reason : jsval).
Arguments StateFulfilled {A} value.
Arguments StateRejected {A} reason.

Definition is_pending {A : Type} (p : promise A) : bool :=
  match p with Pending => true | _ => false end.

Definition inspect {A : Type} (p : promise A) : option (snapshot A) :=
  match p with
  | Pending => None
  | Fulfilled v => Some (StateFulfilled v)
  | Rejected e => Some (StateRejected e)
  end.

(** [Q.allSettled(promises)]: waits for every promise and resolves with
    their snapshots in the order of [promises]; it never rejects. *)
Definition allSettled {A : Type} (promises : list (promise A))
  : promise (list (snapshot A)) :=
  if existsb is_pending promises then Pending
  else Fulfilled (omap inspect promises).

(** [Q.all(promises)].  The library keeps the array of promises and a
    deferred.  When promise [i] is fulfilled its value takes its place in
    the array, and the deferred is resolved with the array once it holds
    no promise any more; a rejection rejects the deferred.  A slot is
    [None] while it still holds its promise.  [sched] lists the
    positions of the promises in the order in which they settle (a
    promise settles once: a position met again is ignored). *)
Record all_state (A : Type) : Type := AllState {
  slots : list (option A);
  deferred : promise (list A)
}.
Arguments AllState {A} slots deferred.
Arguments slots {A} a.
Arguments deferred {A} a.

Definition all_settle {A : Type} (promises : list (promise A))
           (st : all_state A) (i : nat) : all_state A :=
  match slots st !! i, promises !! i with
  | Some None, Some (Fulfilled v) =>
      let slots' := <[i := Some v]> (slots st) in
      AllState slots'
               (match mapM id slots' with
                | Some values => d_resolve values (deferred st)
                | None => deferred st
                end)
  | Some None, Some (Rejected e) =>
      AllState (slots st) (d_reject e (deferred st))
  | _, _ => st
  end.

Definition all {A : Type} (sched : list nat) (promises : list (promise A))
  : promise (list A) :=
  match promises with
  | [] => Fulfilled []
  | _ :: _ =>
      deferred
        (foldl (all_settle promises)
               (AllState (replicate (length promises) None) Pending)
               sched)
  end.

End Q.

(* ================================================================== *)
(** ** Effects: the trace of what a helper does *)
(* ================================================================== *)

Module Eff.
Import JS.

(** A JSON object of a response (a repository, an issue, a label ...). *)
Definition object : Type := list (string * jsval).

(** [_.has(o, key)] *)
Definition has (o : object) (key : string) : bool := JS.has (JObj o) key.

(** [o.key] *)
Definition get (o : object) (key : string) : jsval := JS.get (JObj o) key.

(** [err.message] of a (truthy) error value. *)
Definition message_of (err : jsval) : jsval := JS.get err "message".

(** The option objects handed to the GitHub client. *)
Inductive request : Type :=
| ReposGetFromOrg (org per_page page : jsval)
| IssuesRepoIssues (user repo per_page page labels milestone assignee : jsval)
| IssuesGetLabels (user repo per_page page : jsval)
| IssuesGetAllMilestones (user repo per_page page : jsval)
| IssuesCreateLabel (user repo name color : jsval)
| IssuesDeleteLabel (user repo name : jsval)
| IssuesCreateMilestone (user repo title : jsval)
| IssuesDeleteMilestone (user repo number : jsval)
| EventsGetFromUser (user page : jsval).

(** The package manifest as parsed from [package.json]; a missing
    mapping is [None]. *)
Record packagedata : Type := PackageData {
  dependencies : option (pobj jsval);
  devDependencies : option (pobj jsval)
}.

Inductive event : Type :=
| ApiCall (r : request)
| ConsoleLog (line : string)
| ConsoleError (line : string)
| ConsoleLogRepos (repoList : list object)
| ConsoleLogResults (promiseResults : list (Q.snapshot jsval))
| Exec (command : string) (cwd : jsval)
| FsRead (filename : string)
| FsWrite (filename : string) (data : packagedata)
| Uncaught (err : jsval).            (* rethrown by [.done()] *)

(** A computation with its trace. *)
Record W (A : Type) : Type := MkW { result : A; trace : list event }.
Arguments MkW {A} result trace.
Arguments result {A} w.
Arguments trace {A} w.

Definition tell (es : list event) : W unit := MkW tt es.

#[global] Instance W_ret : MRet W := fun A a => MkW a [].
#[global] Instance W_bind : MBind W := fun A B f m =>
  MkW (result (f (result m))) (trace m ++ trace (f (result m))).

(** A left fold whose step has effects: the body of a [_.forEach]
    that updates an accumulator. *)
Fixpoint foldlM {A B : Type} (f : A -> B -> W A) (a : A) (l : list B) : W A :=
  match l with
  | [] => mret a
  | x :: l' => a' ← f a x; foldlM f a' l'
  end.

(** What a node-style callback [function (err, data)] receives:
    a (truthy) error, or the data. *)
Inductive callback (A : Type) : Type :=
| CbErr (err : jsval)
| CbOk (data : A).
Arguments CbErr {A} err.
Arguments CbOk {A} data.

(** The [rel="last"] link of a response, as far as the helpers read it:
    [query_page] is [parseInt(parsedQuery.query.page)] ([None] for
    [NaN]) and [query_per_page] is [parsedQuery.query.per_page]. *)
Record link : Type := Link {
  query_page : option Z;
  query_per_page : jsval
}.

(** The array a listing endpoint answers with, and the value of
    [github.hasLastPage] on it ([None] when it is falsy). *)
Record response : Type := Response {
  items : list object;
  last_link : option link
}.

End Eff.

(* ================================================================== *)
(** ** [lib/child-process.js] *)
(* ================================================================== *)

Module Subprocess.
Import JS Eff.

(** What [child_process.exec] hands to its callback. *)
Record exec_result : Type := ExecResult {
  error : jsval;                 (* [null], or an error carrying [code] *)
  stdout : string;
  stderr : string
}.

Record t : Type := New {
  cwd : jsval;
  command : string;
  verbose : jsval;
  ignoreErrorCode : jsval
}.

Section Run.
(** [exec(command, {cwd: ...})] *)
Variable exec : string -> jsval -> exec_result.
(** The function object [process.cwd], the fallback of the constructor. *)
Variable process_cwd : jsval.

(** [new Subprocess(command, {cwd: cwd, verbose: verbose})] *)
Definition create (command : string) (opt_cwd opt_verbose : jsval) : t :=
  New (js_or opt_cwd process_cwd) command opt_verbose JUndefined.

Definition run (self : t) : W (Q.promise exec_result) :=
  _ ← (if truthy (verbose self)
       then tell [ConsoleLog ("[running][" +:+ to_string (cwd self)
                              +:+ "]: " +:+ command self)]
       else mret tt);
  _ ← tell [Exec (command self) (cwd self)];
  let r := exec (command self) (cwd self) in
  if truthy (error r) && truthy (JS.get (error r) "code")
     && falsy (ignoreErrorCode self)
  then mret (Q.d_reject
               (JErr ("Error running command: " +:+ command self
                      +:+ " : (" +:+ to_string (JS.get (error r) "code")
                      +:+ ") " +:+ stderr r))
               Q.Pending)
  else
    _ ← (if truthy (verbose self)
         then tell [ConsoleLog (stdout r); ConsoleLog (stderr r)]
         else mret tt);
    mret (Q.d_resolve r Q.Pending).
End Run.

End Subprocess.

(* ================================================================== *)
(** ** [lib/githelper.js] *)
(* ================================================================== *)

Module GitHelper.
Import JS Eff Regex.

(** The pattern of [updatePackageToBranch], group by group:
    [^]  [(git\+https.*\/RackHD\/)]  [([\w_\-\.]+)]  [#*]
    [( [\w_-]* )]  [$]. *)
Definition name_class (c : ascii) : bool :=
  word c || Ascii.eqb c "_" || Ascii.eqb c "-" || Ascii.eqb c ".".

Definition branch_class (c : ascii) : bool :=
  word c || Ascii.eqb c "_" || Ascii.eqb c "-".

Definition repoRegex : re :=
  Cat Bos
   (Cat (Group 1 (Cat (Lit "git+https") (Cat (Star dot) (Lit "/RackHD/"))))
   (Cat (Group 2 (Plus name_class))
   (Cat (Star (is_char "#"))
   (Cat (Group 3 (Star branch_class))
        Eos)))).

(** [String.prototype.trim] (white space of the Latin-1 range). *)
Definition is_space (c : ascii) : bool :=
  in_range 9 13 c || Ascii.eqb c " " || Ascii.eqb c "160".

Fixpoint trim_left (s : list ascii) : list ascii :=
  match s with
  | c :: s' => if is_space c then trim_left s' else s
  | [] => []
  end.

Definition trim (s : string) : string :=
  string_of_list_ascii
    (rev (trim_left (rev (trim_left (list_ascii_of_string s))))).

(** The warning of an entry that already names a branch.  The loop over
    [dependencies] prefixes it with the directory, the loop over
    [devDependencies] does not. *)
Definition already_set (warn_prefix key branch : string) : event :=
  ConsoleLog (warn_prefix +:+ "WARNING: branch for " +:+ key
              +:+ " already set to " +:+ branch +:+ ", not changing!").

(** One step of the two [_.forEach] loops over a dependency mapping:
    the callback applied to [(value, key, collection)]. *)
Definition rewrite_entry (warn_prefix what : string) (cwd branchname verbose : jsval)
           (collection : pobj jsval) (key : string) : W (pobj jsval) :=
  match pobj_get collection key with
  | None => mret collection
  | Some value =>
      match exec repoRegex (to_string value) with
      | Some m =>
          if truthy (JStr (group 3 m))
          then
            _ ← tell [already_set warn_prefix key (group 3 m)];
            mret collection
          else
            let value' := group 1 m +:+ group 2 m +:+ "#"
                          +:+ to_string branchname in
            let collection' := pobj_set key (JStr value') collection in
            _ ← (if truthy verbose
                 then tell [ConsoleLog ("[" +:+ to_string cwd +:+ "] setting "
                                        +:+ what +:+ " value for " +:+ key
                                        +:+ " to " +:+ value')]
                 else mret tt);
            mret collection'
      | None => mret collection
      end
  end.

(** [_.forEach(collection, callback)] over an object: the keys are
    taken first, then each own property is visited; [undefined] is not
    iterated. *)
Definition rewrite_all (warn_prefix what : string) (cwd branchname verbose : jsval)
           (collection : option (pobj jsval)) : W (option (pobj jsval)) :=
  match collection with
  | None => mret None
  | Some c =>
      c' ← foldlM (rewrite_entry warn_prefix what cwd branchname verbose)
                  c (pobj_keys c);
      mret (Some c')
  end.

(** The [.then(function (packagedata) { ... return packagedata; })]
    step of [updatePackageToBranch]. *)
Definition rewrite_manifest (cwd branchname verbose : jsval)
           (p : packagedata) : W packagedata :=
  deps ← rewrite_all ("[" +:+ to_string cwd +:+ "] ") "dependency"
                     cwd branchname verbose (dependencies p);
  dev ← rewrite_all "" "devDependency"
                    cwd branchname verbose (devDependencies p);
  mret (PackageData deps dev).

Section Helper.
Variable exec : string -> jsval -> Subprocess.exec_result.
Variable process_cwd : jsval.
(** [nconf.get('verbose')] *)
Variable verbose : jsval.
(** [fs.readFile(filename, 'utf8', cb)], [JSON.parse] (an exception is
    [CbErr]) and [fs.writeFile(filename, JSON.stringify(..), cb)]. *)
Variable readFile : string -> callback string.
Variable JSON_parse : string -> callback packagedata.
Variable writeFile : string -> packagedata -> callback unit.

Definition sh (command : string) (cwd : jsval)
  : W (Q.promise Subprocess.exec_result) :=
  Subprocess.run exec (Subprocess.create process_cwd command cwd verbose).

(** [p.then(f)] for an [f] that returns a promise. *)
Definition and_then {A B : Type} (p : Q.promise A)
           (f : A -> W (Q.promise B)) : W (Q.promise B) :=
  match p with
  | Q.Fulfilled v => f v
  | Q.Rejected e => mret (Q.Rejected e)
  | Q.Pending => mret Q.Pending
  end.

(** [p.then(f)] for an [f] that returns a plain value. *)
Definition then_value {A B : Type} (p : Q.promise A) (f : A -> B)
  : Q.promise B :=
  match p with
  | Q.Fulfilled v => Q.Fulfilled (f v)
  | Q.Rejected e => Q.Rejected e
  | Q.Pending => Q.Pending
  end.

Definition resetToMaster (cwd : jsval)
  : W (Q.promise Subprocess.exec_result) :=
  if falsy cwd
  then mret (Q.reject (JStr ("Invalid cwd: " +:+ to_string cwd)))
  else
    p1 ← sh "git fetch --all --prune " cwd;
    p2 ← and_then p1 (fun _ => sh "git checkout master" cwd);
    and_then p2 (fun _ => sh "git reset --hard origin/master" cwd).

Definition createBranch (branchname cwd : jsval)
  : W (Q.promise Subprocess.exec_result) :=
  if falsy branchname || falsy cwd
  then mret (Q.reject (JStr ("Invalid args: " +:+ to_string branchname)))
  else
    p1 ← sh ("git checkout -b " +:+ to_string branchname) cwd;
    and_then p1 (fun _ => sh ("git push origin " +:+ to_string branchname) cwd).

Definition branchStatus (cwd : jsval) : W (Q.promise string) :=
  if falsy cwd
  then mret (Q.reject (JStr ("Invalid cwd: " +:+ to_string cwd)))
  else
    p1 ← sh "git status -s " cwd;
    mret (then_value p1 Subprocess.stdout).

Definition currentBranch (cwd : jsval) : W (Q.promise string) :=
  if falsy cwd
  then mret (Q.reject (JStr ("Invalid cwd: " +:+ to_string cwd)))
  else
    p1 ← sh "git branch --no-color | grep '^*' | sed -e 's/^* //'" cwd;
    mret (then_value p1 (fun branchResult => trim (Subprocess.stdout branchResult))).

(** [Q.nfcall(f, ...)]: the promise of a node-style call. *)
Definition nfcall {A : Type} (c : callback A) : Q.promise A :=
  match c with
  | CbErr err => Q.Rejected err
  | CbOk data => Q.Fulfilled data
  end.

Definition updatePackageToBranch (branchname cwd : jsval)
  : W (Q.promise Subprocess.exec_result) :=
  if falsy branchname || falsy cwd
  then mret (Q.reject (JStr ("Invalid args: " +:+ to_string branchname)))
  else
    let filename := to_string cwd +:+ "/package.json" in
    _ ← tell [FsRead filename];
    p1 ← and_then (nfcall (readFile filename))
                  (fun data => mret (nfcall (JSON_parse data)));
    p2 ← and_then p1 (fun packagedata =>
                        p ← rewrite_manifest cwd branchname verbose packagedata;
                        mret (Q.Fulfilled p));
    p3 ← and_then p2 (fun packagedata =>
                        _ ← tell [FsWrite filename packagedata];
                        mret (nfcall (writeFile filename packagedata)));
    p4 ← and_then p3 (fun _ =>
                        r ← sh ("git commit -a -m '"
                                +:+ to_string branchname +:+ "'") cwd;
                        mret (then_value r Subprocess.stdout));
    and_then p4 (fun _ => sh ("git push origin " +:+ to_string branchname) cwd).

(** [fs.exists(path, cb)]: the value handed to the callback. *)
Variable fs_exists : string -> bool.

(** [p.then(function (result) { deferred.resolve(result); })
      .fail(function (err) { deferred.reject(err); })] *)
Definition forward {A : Type} (p deferred : Q.promise A) : Q.promise A :=
  match p with
  | Q.Fulfilled result => Q.d_resolve result deferred
  | Q.Rejected err => Q.d_reject err deferred
  | Q.Pending => deferred
  end.

(** [cloneOrPull] has no guard on its arguments.  The clone is started
    without a [cwd] option, so it runs where [Subprocess] falls back to. *)
Definition cloneOrPull (cwd dirname repo : jsval)
  : W (Q.promise Subprocess.exec_result) :=
  let gitDir := to_string cwd +:+ "/" +:+ to_string dirname in
  let deferred := Q.Pending in
  if fs_exists (gitDir +:+ "/.git")
  then
    p1 ← sh "git fetch --all --prune " (JStr gitDir);
    p2 ← and_then p1 (fun _ => sh "git pull --rebase " (JStr gitDir));
    mret (forward p2 deferred)
  else
    p1 ← sh ("git clone --recursive " +:+ to_string repo +:+ " "
             +:+ to_string dirname) JUndefined;
    mret (forward p1 deferred).
End Helper.

End GitHelper.

(* ================================================================== *)
(** ** [lib/githubapihelper.js] *)
(* ================================================================== *)

Module GithubClient.
Import JS Eff.

(** The step shared by [listLabels] (on [label.name]) and
    [listMilestones] (on [milestone.title]):
    [if (_.has(set, x.f)) set[x.f].push(x); else set[x.f] = [x];] *)
Definition group_step (field : string) (set : pobj (list object)) (x : object)
  : pobj (list object) :=
  let key := to_string (get x field) in
  if pobj_has set key then pobj_push key x set
  else pobj_set key [x] set.

(** The loop [for (var i = 2; i < parseInt(parsedQuery.query.page) + 1;
    i += 1)]: the values [i] takes. *)
Definition page_numbers (l : link) : list Z :=
  match query_page l with
  | Some last => seqZ 2 (last - 1)
  | None => []
  end.

(** The entries a page contributes: [if (_.has(x, 'id')) results.push(x)]. *)
Definition with_id (data : response) : list object :=
  List.filter (fun x => has x "id") (items data).

(** The option objects built by [issues], [repos] and [getUserEvents]:
    [perPage || 100], [page || 1], and the filters that are only set
    when they are truthy. *)
Definition when_truthy (v : jsval) : jsval :=
  if truthy v then v else JUndefined.

Definition issues_options (user repo perPage page labels milestone assignee : jsval)
  : request :=
  IssuesRepoIssues user repo (js_or perPage (JNum 100)) (js_or page (JNum 1))
                   (when_truthy labels) (when_truthy milestone)
                   (when_truthy assignee).

Definition repos_options (org perPage page : jsval) : request :=
  ReposGetFromOrg org (js_or perPage (JNum 100)) (js_or page (JNum 1)).

Definition events_options (user page : jsval) : request :=
  EventsGetFromUser user (js_or page (JNum 1)).

(** [_.compact(promises)]: every element is a promise, hence truthy. *)
Definition compact {A : Type} (promises : list A) : list A := promises.

Section Client.
(** The answers of the GitHub client ([this.github]): listing
    endpoints, and endpoints whose data is a single value. *)
Variable github_list : request -> callback response.
Variable github_do : request -> callback jsval.

(** [function (err, data) { if (err) { deferred.reject(err); }
    deferred.resolve(data); }] and its [if / else] variant: with an
    error the deferred is rejected first, so both settle alike. *)
Definition settle {A : Type} (c : callback A) (d : Q.promise A)
  : Q.promise A :=
  match c with
  | CbErr err => Q.d_reject err d
  | CbOk data => Q.d_resolve data d
  end.

Definition issues (user repo perPage page labels milestone assignee : jsval)
  : W (Q.promise response) :=
  let deferred := Q.Pending in
  let deferred :=
    if falsy user then Q.d_reject (JStr "No user specified") deferred
    else deferred in
  let deferred :=
    if falsy repo then Q.d_reject (JStr "No repo specified") deferred
    else deferred in
  let options :=
    issues_options user repo perPage page labels milestone assignee in
  _ ← tell [ApiCall options];
  mret (settle (github_list options) deferred).

Definition repos (org perPage page : jsval) : W (Q.promise response) :=
  let options := repos_options org perPage page in
  _ ← tell [ApiCall options];
  mret (settle (github_list options) Q.Pending).

(** [allRepos]: page 1, then the pages announced by its [rel="last"]
    link, requested together and joined with [Q.all]; [sched] is the
    order in which these requests complete. *)
Definition allRepos (sched : list nat) (org : jsval)
  : W (Q.promise (list object)) :=
  let deferred := Q.Pending in
  first ← repos org JUndefined JUndefined;
  match first with
  | Q.Fulfilled data =>
      let results := with_id data in
      match last_link data with
      | Some parsedQuery =>
          promises ← mapM (fun i => repos org (query_per_page parsedQuery)
                                          (JNum i))
                          (page_numbers parsedQuery);
          match Q.all sched promises with
          | Q.Fulfilled allResults =>
              mret (Q.d_resolve (results ++ concat (map with_id allResults))
                                deferred)
          | Q.Rejected err => mret (Q.d_reject err deferred)
          | Q.Pending => mret deferred
          end
      | None => mret (Q.d_resolve results deferred)
      end
  | Q.Rejected err => mret (Q.d_reject err deferred)
  | Q.Pending => mret deferred
  end.

Definition allIssues (sched : list nat)
           (user repo labels milestone assignee : jsval)
  : W (Q.promise (list object)) :=
  let deferred := Q.Pending in
  let deferred :=
    if falsy user then Q.d_reject (JStr "No user specified") deferred
    else deferred in
  let deferred :=
    if falsy repo then Q.d_reject (JStr "No repo specified") deferred
    else deferred in
  first ← issues user repo JNull JNull labels milestone assignee;
  match first with
  | Q.Fulfilled data =>
      let results := with_id data in
      match last_link data with
      | Some parsedQuery =>
          promises ← mapM (fun i => issues user repo
                                           (query_per_page parsedQuery) (JNum i)
                                           labels milestone assignee)
                          (page_numbers parsedQuery);
          match Q.all sched promises with
          | Q.Fulfilled allResults =>
              mret (Q.d_resolve (results ++ concat (map with_id allResults))
                                deferred)
          | Q.Rejected err => mret (Q.d_reject err deferred)
          | Q.Pending => mret deferred
          end
      | None => mret (Q.d_resolve results deferred)
      end
  | Q.Rejected err => mret (Q.d_reject err deferred)
  | Q.Pending => mret deferred
  end.

Definition getLabelsInRepo (user repoName perPage page : jsval)
  : W (Q.promise response) :=
  let perPage := js_or perPage (JNum 100) in
  let page := js_or page (JNum 1) in
  let options := IssuesGetLabels user repoName perPage page in
  _ ← tell [ApiCall options];
  mret (settle (github_list options) Q.Pending).

Definition getMilestonesInRepo (user repoName perPage page : jsval)
  : W (Q.promise response) :=
  let perPage := js_or perPage (JNum 100) in
  let page := js_or page (JNum 1) in
  let options := IssuesGetAllMilestones user repoName perPage page in
  _ ← tell [ApiCall options];
  mret (settle (github_list options) Q.Pending).

Definition createLabelInRepo (user repoName label color : jsval)
  : W (Q.promise jsval) :=
  let color := js_or color (JStr "ffffff") in
  let options := IssuesCreateLabel user repoName label color in
  _ ← tell [ApiCall options];
  match github_do options with
  | CbErr err =>
      _ ← tell [ConsoleLog ("Unable to create " +:+ to_string label +:+ " for "
                  +:+ to_string user +:+ "/" +:+ to_string repoName
                  +:+ " : " +:+ to_string err)];
      mret (Q.d_reject err Q.Pending)
  | CbOk _ =>
      _ ← tell [ConsoleLog ("Created label " +:+ to_string label +:+ " for "
                  +:+ to_string user +:+ "/" +:+ to_string repoName)];
      mret (Q.d_resolve (JBool true) Q.Pending)
  end.

Definition deleteLabelInRepo (user repoName label : jsval)
  : W (Q.promise jsval) :=
  let options := IssuesDeleteLabel user repoName label in
  _ ← tell [ApiCall options];
  match github_do options with
  | CbErr err =>
      _ ← tell [ConsoleLog ("Unable to delete " +:+ to_string label +:+ " for "
                  +:+ to_string user +:+ "/" +:+ to_string repoName
                  +:+ " : " +:+ to_string (message_of err))];
      mret (Q.d_reject err Q.Pending)
  | CbOk _ =>
      _ ← tell [ConsoleLog ("Deleted label " +:+ to_string label +:+ " for "
                  +:+ to_string user +:+ "/" +:+ to_string repoName)];
      mret (Q.d_resolve (JBool true) Q.Pending)
  end.

Definition createMilestoneInRepo (user repo milestone : jsval)
  : W (Q.promise jsval) :=
  let options := IssuesCreateMilestone user repo milestone in
  _ ← tell [ApiCall options];
  match github_do options with
  | CbErr err =>
      _ ← tell [ConsoleLog ("Unable to create " +:+ to_string milestone
                  +:+ " for " +:+ to_string user +:+ "/" +:+ to_string repo
                  +:+ " : " +:+ to_string (message_of err))];
      mret (Q.d_reject err Q.Pending)
  | CbOk aMilestone =>
      _ ← tell [ConsoleLog ("Created " +:+ to_string milestone +:+ " for "
                  +:+ to_string user +:+ "/" +:+ to_string repo)];
      mret (Q.d_resolve aMilestone Q.Pending)
  end.

Definition milestonesInRepo (user repo : jsval) : W (Q.promise response) :=
  let options := IssuesGetAllMilestones user repo JUndefined JUndefined in
  _ ← tell [ApiCall options];
  mret (settle (github_list options) Q.Pending).

(** The [_.forEach] of [deleteMilestoneInRepo]: the flag [nochange]
    and the deletion calls it issues, in order. *)
Definition delete_matching (user repo milestone : jsval)
           (milestonesData : list object) : bool * list request :=
  foldl (fun st aMilestone =>
           if strict_eq (get aMilestone "title") milestone
           then (false,
                 snd st ++ [IssuesDeleteMilestone user repo
                                                  (get aMilestone "number")])
           else st)
        (true, []) milestonesData.

(** The callback of one deletion call. *)
Definition delete_callback (user repo milestone : jsval)
           (deferred : Q.promise jsval) (call : request)
  : W (Q.promise jsval) :=
  match github_do call with
  | CbErr err =>
      _ ← tell [ConsoleLog ("Unable to delete " +:+ to_string milestone
                  +:+ " for " +:+ to_string user +:+ "/" +:+ to_string repo
                  +:+ " : " +:+ to_string err)];
      mret (Q.d_reject err deferred)
  | CbOk _ =>
      _ ← tell [ConsoleLog ("Deleted " +:+ to_string milestone +:+ " for "
                  +:+ to_string user +:+ "/" +:+ to_string repo)];
      mret (Q.d_resolve (JBool true) deferred)
  end.

(** The listing promise has a [.then] and no rejection handler: when
    it is rejected the deferred is never settled.  The callbacks of the
    deletion calls run after the loop, in the order of the calls. *)
Definition deleteMilestoneInRepo (user repo milestone : jsval)
  : W (Q.promise jsval) :=
  listed ← milestonesInRepo user repo;
  match listed with
  | Q.Fulfilled milestonesData =>
      let '(nochange, calls) :=
        delete_matching user repo milestone (items milestonesData) in
      _ ← tell (map ApiCall calls);
      if nochange
      then
        let msg := "No milestone named " +:+ to_string milestone
                   +:+ " found in " +:+ to_string user +:+ "/"
                   +:+ to_string repo in
        _ ← tell [ConsoleLog msg];
        mret (Q.d_reject (JStr msg) Q.Pending)
      else foldlM (delete_callback user repo milestone) Q.Pending calls
  | _ => mret Q.Pending
  end.

(** The body of [_.forEach(combinedResultSet, ...)] in
    [listMilestones]. *)
Definition collect_milestones (milestoneSet : pobj (list object))
           (entry : string * Q.snapshot response)
  : W (pobj (list object)) :=
  match snd entry with
  | Q.StateRejected reason =>
      _ ← tell [ConsoleError ("error retrieving milestones for " +:+ fst entry
                              +:+ " " +:+ to_string reason)];
      mret milestoneSet
  | Q.StateFulfilled value =>
      mret (foldl (group_step "title") milestoneSet (items value))
  end.

(** When [allRepos] is rejected the [.then] callback is skipped and
    nothing settles the deferred. *)
Definition listMilestones (sched : list nat) (org : jsval)
  : W (Q.promise (pobj (list object))) :=
  repos_p ← allRepos sched org;
  match repos_p with
  | Q.Fulfilled repoList =>
      promises ← mapM (fun repo =>
                         getMilestonesInRepo org (get repo "name")
                                             JUndefined JUndefined)
                      repoList;
      match Q.allSettled promises with
      | Q.Fulfilled promiseResults =>
          let combinedResultSet :=
            zipObject (pluck (map JObj repoList) "name") promiseResults in
          milestoneSet ← foldlM collect_milestones [] combinedResultSet;
          mret (Q.d_resolve milestoneSet Q.Pending)
      | _ => mret Q.Pending
      end
  | _ => mret Q.Pending
  end.

(** [Q.all(promises).then(...).done()]: a rejection skips the callback
    and is rethrown by [.done()]; the deferred is left pending. *)
Definition listLabels (sched sched_labels : list nat) (org : jsval)
  : W (Q.promise (pobj (list object))) :=
  repos_p ← allRepos sched org;
  match repos_p with
  | Q.Fulfilled repoList =>
      promises ← mapM (fun repo =>
                         getLabelsInRepo org (get repo "name")
                                         JUndefined JUndefined)
                      repoList;
      match Q.all sched_labels promises with
      | Q.Fulfilled promiseResults =>
          let labelSet :=
            foldl (fun set labelList =>
                     foldl (group_step "name") set (items labelList))
                  [] promiseResults in
          mret (Q.d_resolve labelSet Q.Pending)
      | Q.Rejected err => _ ← tell [Uncaught err]; mret Q.Pending
      | Q.Pending => mret Q.Pending
      end
  | _ => mret Q.Pending
  end.

(** The four mutating fan-outs: [Q.allSettled] over one call per
    repository, then [_.zipObject(repoList, promiseResults)]. *)
Definition createLabels (sched : list nat) (org label : jsval)
  : W (Q.promise (pobj (Q.snapshot jsval))) :=
  repos_p ← allRepos sched org;
  match repos_p with
  | Q.Fulfilled repoList =>
      promises ← mapM (fun repo =>
                         createLabelInRepo org (get repo "name") label
                                           JUndefined)
                      repoList;
      match Q.allSettled promises with
      | Q.Fulfilled promiseResults =>
          let qq := zipObject (map JObj repoList) promiseResults in
          mret (Q.d_resolve qq Q.Pending)
      | _ => mret Q.Pending
      end
  | _ => mret Q.Pending
  end.

Definition deleteLabels (sched : list nat) (org label : jsval)
  : W (Q.promise (pobj (Q.snapshot jsval))) :=
  repos_p ← allRepos sched org;
  match repos_p with
  | Q.Fulfilled repoList =>
      promises ← mapM (fun repo =>
                         deleteLabelInRepo org (get repo "name") label)
                      repoList;
      match Q.allSettled promises with
      | Q.Fulfilled promiseResults =>
          let qq := zipObject (map JObj repoList) promiseResults in
          mret (Q.d_resolve qq Q.Pending)
      | _ => mret Q.Pending
      end
  | _ => mret Q.Pending
  end.

Definition createMilestones (sched : list nat) (org milestone : jsval)
  : W (Q.promise (pobj (Q.snapshot jsval))) :=
  repos_p ← allRepos sched org;
  match repos_p with
  | Q.Fulfilled repoList =>
      _ ← tell [ConsoleLogRepos repoList];
      promises ← mapM (fun repo =>
                         createMilestoneInRepo org (get repo "name") milestone)
                      repoList;
      match Q.allSettled (compact promises) with
      | Q.Fulfilled promiseResults =>
          _ ← tell [ConsoleLog "resolving!"; ConsoleLogResults promiseResults];
          let qq := zipObject (map JObj repoList) promiseResults in
          mret (Q.d_resolve qq Q.Pending)
      | _ => mret Q.Pending
      end
  | _ => mret Q.Pending
  end.

Definition deleteMilestones (sched : list nat) (org milestone : jsval)
  : W (Q.promise (pobj (Q.snapshot jsval))) :=
  repos_p ← allRepos sched org;
  match repos_p with
  | Q.Fulfilled repoList =>
      promises ← mapM (fun repo =>
                         deleteMilestoneInRepo org (get repo "name") milestone)
                      repoList;
      match Q.allSettled promises with
      | Q.Fulfilled promiseResults =>
          let qq := zipObject (map JObj repoList) promiseResults in
          mret (Q.d_resolve qq Q.Pending)
      | _ => mret Q.Pending
      end
  | _ => mret Q.Pending
  end.

(** [loadAllIssues]: the issues of every repository, each fetched with
    [allIssues(org, repo.name)] and joined with [Q.all]; there is no
    rejection handler.  [sched_issues i] is the order in which the page
    requests for the repository at position [i] complete, [sched_all]
    the order in which the repositories do. *)
Definition loadAllIssues (sched : list nat) (sched_issues : nat -> list nat)
           (sched_all : list nat) (org : jsval)
  : W (Q.promise (list object)) :=
  repos_p ← allRepos sched org;
  match repos_p with
  | Q.Fulfilled repoList =>
      promises ← mapM (fun ir : nat * object =>
                         allIssues (sched_issues ir.1) org (get ir.2 "name")
                                   JUndefined JUndefined JUndefined)
                      (zip (seq 0 (length repoList)) repoList);
      match Q.all sched_all promises with
      | Q.Fulfilled promiseResults =>
          mret (Q.d_resolve (concat promiseResults) Q.Pending)
      | Q.Rejected err => _ ← tell [Uncaught err]; mret Q.Pending
      | Q.Pending => mret Q.Pending
      end
  | _ => mret Q.Pending
  end.

Definition getUserEvents (user page : jsval) : W (Q.promise response) :=
  let options := events_options user page in
  _ ← tell [ApiCall options];
  mret (settle (github_list options) Q.Pending).

Definition getAllUserEvents (sched : list nat) (user : jsval)
  : W (Q.promise (list object)) :=
  let deferred := Q.Pending in
  first ← getUserEvents user JNull;
  match first with
  | Q.Fulfilled events =>
      let results := with_id events in
      match last_link events with
      | Some parsedQuery =>
          promises ← mapM (fun i => getUserEvents user (JNum i))
                          (page_numbers parsedQuery);
          match Q.all sched promises with
          | Q.Fulfilled allResults =>
              mret (Q.d_resolve (results ++ concat (map with_id allResults))
                                deferred)
          | Q.Rejected err => mret (Q.d_reject err deferred)
          | Q.Pending => mret deferred
          end
      | None => mret (Q.d_resolve results deferred)
      end
  | Q.Rejected err => mret (Q.d_reject err deferred)
  | Q.Pending => mret deferred
  end.
End Client.

End GithubClient.

(* ================================================================== *)
(** ** The command line tool ([pmtool]) *)
(* ================================================================== *)

Module Pmtool.
Import JS Eff.

(** [s.split(sep)] for a separator of one character: the pieces between
    the separators, the empty ones included. *)
Fixpoint split (sep : ascii) (s : list ascii) : list (list ascii) :=
  match s with
  | [] => [[]]
  | c :: s' =>
      if Ascii.eqb c sep then [] :: split sep s'
      else match split sep s' with
           | p :: ps => (c :: p) :: ps
           | [] => [[c]]
           end
  end.

(** [parts[i]] *)
Definition part (parts : list (list ascii)) (i : nat) : jsval :=
  match parts !! i with
  | Some p => JStr (string_of_list_ascii p)
  | None => JUndefined
  end.

Definition issueShortForm (issueUrl : string) : string :=
  let parts := split "/" (list_ascii_of_string issueUrl) in
  "" +:+ to_string (part parts 4) +:+ "#" +:+ to_string (part parts 6).



Section Commands.
Variable exec : string -> jsval -> Subprocess.exec_result.
Variable process_cwd : jsval.
Variable fs_exists : string -> bool.
Variable readFile : string -> callback string.
(** [JSON.parse] of the workspace file, which holds an object that maps
    directory names to the repositories they are cloned from. *)
Variable JSON_parse : string -> callback (pobj string).
(** [process.cwd()] when the tool starts, and the settings
    [nconf.get('verbose')] and [nconf.get('debug')]. *)
Variable cwd : string.
Variables verbose debug : jsval.
(** [err.stack] *)
Variable stack : jsval -> jsval.




End Commands.

End Pmtool.

(* ================================================================== *)
(** ** Notions used in the statements and in the proofs *)
(* ================================================================== *)

Module Notions.
Import JS Eff Q Regex GitHelper GithubClient.

(** *** Paged fetches *)

(** The page numbers requested after page 1, as announced by page 1. *)
Definition further_pages (first : response) : list Z :=
  match last_link first with
  | Some parsedQuery => page_numbers parsedQuery
  | None => []
  end.

(** The shape [allRepos], [allIssues] and [getAllUserEvents] share once
    page 1 has been requested: [fetch perPage page] is the single-page
    helper, [first] the promise of page 1, [deferred] the deferred of
    the caller and [sched] the order in which the requests for the
    further pages complete. *)
Definition all_pages (fetch : jsval -> jsval -> W (promise response))
           (sched : list nat) (first : promise response)
           (deferred : promise (list object))
  : W (promise (list object)) :=
  match first with
  | Fulfilled data =>
      let results := with_id data in
      match last_link data with
      | Some parsedQuery =>
          promises ← mapM (fun i => fetch (query_per_page parsedQuery) (JNum i))
                          (page_numbers parsedQuery);
          match Q.all sched promises with
          | Fulfilled allResults =>
              mret (d_resolve (results ++ concat (map with_id allResults))
                              deferred)
          | Rejected err => mret (d_reject err deferred)
          | Pending => mret deferred
          end
      | None => mret (d_resolve results deferred)
      end
  | Rejected err => mret (d_reject err deferred)
  | Pending => mret deferred
  end.

(** The deferred of [issues] and [allIssues] after their two guards. *)
Definition guarded {A : Type} (user repo : jsval) : promise A :=
  let deferred := Pending in
  let deferred :=
    if falsy user then d_reject (JStr "No user specified") deferred
    else deferred in
  if falsy repo then d_reject (JStr "No repo specified") deferred
  else deferred.

(** The [perPage] argument of the requests for the further pages. *)
Definition further_per_page (first : response) : jsval :=
  match last_link first with
  | Some parsedQuery => query_per_page parsedQuery
  | None => JUndefined
  end.

(** *** Invariants of [Q.all] *)

(** While no rejection is met the deferred mirrors the array: it is
    fulfilled exactly when every slot holds a value. *)
Definition mirrors {A : Type} (st : all_state A) : Prop :=
  deferred st = match mapM id (slots st) with
                | Some values => Fulfilled values
                | None => Pending
                end.

(** The deferred carries the reason of one of the rejected promises. *)
Definition rejected_by {A : Type} (ps : list (promise A))
           (d : promise (list A)) : Prop :=
  exists e j, d = Rejected e /\ ps !! j = Some (Rejected e).

(** Slot [j] still holds its promise and the deferred is not fulfilled. *)
Definition unresolved {A : Type} (ps : list (promise A)) (j : nat)
           (st : all_state A) : Prop :=
  slots st !! j = Some None
  /\ (deferred st = Pending \/ rejected_by ps (deferred st)).

(** Every filled slot holds the value of its promise, and a fulfilled
    deferred carries the values of the slots. *)
Definition filled_from {A : Type} (ps : list (promise A)) (st : all_state A)
  : Prop :=
  (forall j v, slots st !! j = Some (Some v) -> ps !! j = Some (Fulfilled v))
  /\ (forall vs, deferred st = Fulfilled vs -> mapM id (slots st) = Some vs).

(** *** The manifest rewrite *)

Definition scheme : list ascii := list_ascii_of_string "git+https".
Definition owner : list ascii := list_ascii_of_string "/RackHD/".

(** The value [rewrite_entry] leaves in an entry that held [value]. *)
Definition rewritten (branchname value : jsval) : jsval :=
  match exec repoRegex (to_string value) with
  | Some m =>
      if truthy (JStr (group 3 m)) then value
      else JStr (group 1 m +:+ group 2 m +:+ "#" +:+ to_string branchname)
  | None => value
  end.


(** The two mappings of the manifest that are rewritten, and the prefix
    of the warning in each loop. *)
Definition mapping (dev : bool) (p : packagedata) : option (pobj jsval) :=
  if dev then devDependencies p else dependencies p.


(** *** Grouping *)



(** A property name that is enumerated in creation order: one that is
    not an array index. *)
Definition named (k : string) : Prop := array_index k = None.

#[global] Instance named_dec (k : string) : Decision (named k) :=
  decide (array_index k = None).

(** *** Fan-outs *)

(** The shape the four mutating fan-outs share: [op] is the call made
    for one repository, and the two flags tell whether the repositories
    and the results are printed. *)
Definition fan_out (github_list : request -> callback response)
           (op : object -> W (promise jsval))
           (log_repos log_results : bool)
           (sched : list nat) (org : jsval)
  : W (promise (pobj (snapshot jsval))) :=
  repos_p ← allRepos github_list sched org;
  match repos_p with
  | Fulfilled repoList =>
      _ ← (if log_repos then tell [ConsoleLogRepos repoList] else mret tt);
      promises ← mapM op repoList;
      match allSettled (compact promises) with
      | Fulfilled promiseResults =>
          _ ← (if log_results
               then tell [ConsoleLog "resolving!";
                          ConsoleLogResults promiseResults]
               else mret tt);
          let qq := zipObject (map JObj repoList) promiseResults in
          mret (d_resolve qq Pending)
      | _ => mret Pending
      end
  | _ => mret Pending
  end.

(** *** Milestones and labels per repository *)

(** [aMilestone.title === milestone] *)
Definition titled (milestone : jsval) (a : object) : bool :=
  strict_eq (get a "title") milestone.

Definition not_found_message (user repo milestone : jsval) : string :=
  "No milestone named " +:+ to_string milestone +:+ " found in "
  +:+ to_string user +:+ "/" +:+ to_string repo.






(** *** Child processes *)

(** When [Subprocess.run] rejects, for a process created without the
    [ignore] option: the callback of [exec] received an error that
    carries a truthy [code]. *)
Definition command_fails (exec : string -> jsval -> Subprocess.exec_result)
           (command : string) (cwd : jsval) : bool :=
  truthy (Subprocess.error (exec command cwd))
  && truthy (JS.get (Subprocess.error (exec command cwd)) "code").

(** The error it rejects with. *)
Definition failure (exec : string -> jsval -> Subprocess.exec_result)
           (command : string) (cwd : jsval) : jsval :=
  JErr ("Error running command: " +:+ command +:+ " : ("
        +:+ to_string (JS.get (Subprocess.error (exec command cwd)) "code")
        +:+ ") " +:+ Subprocess.stderr (exec command cwd)).

Definition outcome (exec : string -> jsval -> Subprocess.exec_result)
           (command : string) (cwd : jsval)
  : promise Subprocess.exec_result :=
  if command_fails exec command cwd then Rejected (failure exec command cwd)
  else Fulfilled (exec command cwd).

(** The commands of a sequence that are run when each one waits for the
    success of the one before: those up to and including the first that
    fails. *)
Fixpoint attempted (exec : string -> jsval -> Subprocess.exec_result)
         (cwd : jsval) (commands : list string) : list string :=
  match commands with
  | [] => []
  | c :: cs =>
      c :: (if command_fails exec c cwd then [] else attempted exec cwd cs)
  end.

(** The final state of such a sequence: that of the last command that
    is run. *)
Definition chain_outcome (exec : string -> jsval -> Subprocess.exec_result)
           (cwd : jsval) (commands : list string)
  : promise Subprocess.exec_result :=
  match last (attempted exec cwd commands) with
  | Some c => outcome exec c cwd
  | None => Pending
  end.

(** The child processes of a trace, and a trace without what is printed
    with [console.log]. *)
Definition is_exec (e : event) : bool :=
  match e with Exec _ _ => true | _ => false end.

Definition execs (tr : list event) : list event := List.filter is_exec tr.

Definition is_console_log (e : event) : bool :=
  match e with ConsoleLog _ => true | _ => false end.

Definition quiet (tr : list event) : list event :=
  List.filter (fun e => negb (is_console_log e)) tr.

(** Two runs that differ at most in what they print. *)
Definition same_but_console {A : Type} (a b : W A) : Prop :=
  result a = result b /\ quiet (trace a) = quiet (trace b).

(** The requests of a trace, in order. *)
Definition api_calls (tr : list event) : list request :=
  omap (fun e => match e with ApiCall r => Some r | _ => None end) tr.


(** *** Branch names and stable manifest values *)



(** *** Enumeration order *)




(** *** The workspace commands *)



End Notions.

(* ================================================================== *)
(** ** Concrete organisations and manifests *)
(* ================================================================== *)

Module Examples.
Import JS Eff Q.

Definition repo (id : Z) (name : string) : object :=
  [("id", JNum id); ("name", JStr name)].

Definition label (name : string) : object :=
  [("name", JStr name); ("color", JStr "ededed")].

Definition milestone (number : Z) (title : string) : object :=
  [("number", JNum number); ("title", JStr title)].

Definition not_found : jsval := JErr "Not Found".

(** An organisation with the repositories [a] and [b], on a single page.
    Repository [a] has the labels [bug] and [1] and the milestone [1.0];
    every other listing fails. *)
Definition two_repos (r : request) : callback response :=
  match r with
  | ReposGetFromOrg _ _ _ => CbOk (Response [repo 1 "a"; repo 2 "b"] None)
  | IssuesGetLabels _ repoName _ _ =>
      if strict_eq repoName (JStr "a")
      then CbOk (Response [label "bug"; label "1"] None)
      else CbErr not_found
  | IssuesGetAllMilestones _ repoName _ _ =>
      if strict_eq repoName (JStr "a")
      then CbOk (Response [milestone 7 "1.0"] None)
      else CbErr not_found
  | _ => CbErr not_found
  end.


(** Creating a label succeeds in [a] and fails in [b]. *)
Definition create_in_a (r : request) : callback jsval :=
  match r with
  | IssuesCreateLabel _ repoName _ _ =>
      if strict_eq repoName (JStr "a") then CbOk JUndefined
      else CbErr not_found
  | _ => CbErr not_found
  end.

(** A listing of three pages, two entries per page; the second entry of
    page 1 has no [id]. *)
Definition page1 : response :=
  Response [repo 1 "a"; [("name", JStr "ghost")]]
           (Some (Link (Some 3%Z) (JStr "2"))).
Definition page2 : response := Response [repo 2 "b"; repo 3 "c"] None.
Definition page3 : response := Response [repo 4 "d"] None.

Definition page_number (r : request) : jsval :=
  match r with
  | ReposGetFromOrg _ _ page => page
  | IssuesRepoIssues _ _ _ page _ _ _ => page
  | EventsGetFromUser _ page => page
  | _ => JUndefined
  end.

Definition three_pages (r : request) : callback response :=
  if strict_eq (page_number r) (JNum 1) then CbOk page1
  else if strict_eq (page_number r) (JNum 2) then CbOk page2
  else if strict_eq (page_number r) (JNum 3) then CbOk page3
  else CbErr not_found.

(** The same listing when the request for page 3 fails. *)
Definition page3_fails (r : request) : callback response :=
  if strict_eq (page_number r) (JNum 1) then CbOk page1
  else if strict_eq (page_number r) (JNum 2) then CbOk page2
  else CbErr not_found.

Definition nothing_answers (r : request) : callback response :=
  CbErr not_found.

Definition deletion_succeeds (r : request) : callback jsval := CbOk JUndefined.

(** A manifest with an entry without a branch, an entry pinned to
    [hotfix], and an entry that is no repository reference. *)
Definition manifest : packagedata :=
  PackageData
    (Some [("on-core", JStr "git+https://github.com/RackHD/on-core");
           ("on-tasks", JStr "git+https://github.com/RackHD/on-tasks#hotfix");
           ("lodash", JStr "^3.10.0")])
    None.


Definition exec_ok (command : string) (cwd : jsval) : Subprocess.exec_result :=
  Subprocess.ExecResult JNull "" "".
Definition read_ok (filename : string) : callback string := CbOk "{}".
Definition parse_as (p : packagedata) (data : string) : callback packagedata :=
  CbOk p.
Definition write_ok (filename : string) (p : packagedata) : callback unit :=
  CbOk tt.

(** A shell in which the command [bad] ends with exit code 1 and every
    other command succeeds and prints [master] on a line. *)
Definition exec_fails_on (bad : string) (command : string) (cwd : jsval)
  : Subprocess.exec_result :=
  if String.eqb command bad
  then Subprocess.ExecResult (JObj [("code", JNum 1)]) "" "fatal"
  else Subprocess.ExecResult JNull ("master" +:+ String "010" "") "".





(** An organisation with the repositories [a] and [b], each with one
    issue. *)
Definition issue (id : Z) (title : string) : object :=
  [("id", JNum id); ("title", JStr title)].

Definition two_repos_issues (r : request) : callback response :=
  match r with
  | ReposGetFromOrg _ _ _ => CbOk (Response [repo 1 "a"; repo 2 "b"] None)
  | IssuesRepoIssues _ repoName _ _ _ _ _ =>
      if strict_eq repoName (JStr "a")
      then CbOk (Response [issue 10 "crash"] None)
      else CbOk (Response [issue 20 "typo"] None)
  | _ => CbErr not_found
  end.

(** A listing whose only page names itself as the last one. *)
Definition single_page : response :=
  Response [repo 1 "a"] (Some (Link (Some 1%Z) (JStr "100"))).

Definition one_page (r : request) : callback response := CbOk single_page.

End Examples.

(* ================================================================== *)
(** * Properties *)
(* ================================================================== *)

(** ** The trace monad *)

Section Writer.
Import Eff.

Lemma result_bind {A B} (m : W A) (f : A -> W B) :
  result (m ≫= f) = result (f (result m)).
Proof. reflexivity. Qed.

Lemma trace_bind {A B} (m : W A) (f : A -> W B) :
  trace (m ≫= f) = trace m ++ trace (f (result m)).
Proof. reflexivity. Qed.

Lemma result_mapM {A B} (f : A -> W B) (l : list A) :
  result (mapM f l) = map (fun x => result (f x)) l.
Proof.
  induction l as [|x l IH]; [done|].
  cbn [mapM]. rewrite !result_bind. simpl. by rewrite IH.
Qed.

Lemma trace_mapM {A B} (f : A -> W B) (l : list A) :
  trace (mapM f l) = concat (map (fun x => trace (f x)) l).
Proof.
  induction l as [|x l IH]; [done|].
  cbn [mapM]. rewrite !trace_bind, IH. simpl. by rewrite app_nil_r.
Qed.
End Writer.

(** ** [Q.all]: the result does not depend on the order of completion *)

Section QAll.
Import JS Q Notions.
Context {A : Type}.
Implicit Types (ps : list (promise A)) (st : all_state A) (sched : list nat).

Lemma all_settle_length ps st i :
  length (slots (all_settle ps st i)) = length (slots st).
Proof.
  unfold all_settle.
  destruct (slots st !! i) as [[?|]|]; try done.
  destruct (ps !! i) as [[| v | e]|]; simpl; try done.
  by rewrite length_insert.
Qed.

Lemma all_fold_length ps sched st :
  length (slots (foldl (all_settle ps) st sched)) = length (slots st).
Proof.
  revert st. induction sched as [|i sched IH]; intros st; simpl; [done|].
  by rewrite IH, all_settle_length.
Qed.

(** A slot that holds a value keeps it. *)
Lemma all_settle_filled ps st i j v :
  slots st !! j = Some (Some v) ->
  slots (all_settle ps st i) !! j = Some (Some v).
Proof.
  intros Hj. unfold all_settle.
  destruct (slots st !! i) as [[?|]|] eqn:Hi; try done.
  destruct (ps !! i) as [[| w | e]|]; simpl; try done.
  destruct (decide (i = j)) as [->|Hne]; [congruence|].
  by rewrite list_lookup_insert_ne.
Qed.

Lemma all_fold_filled ps sched st j v :
  slots st !! j = Some (Some v) ->
  slots (foldl (all_settle ps) st sched) !! j = Some (Some v).
Proof.
  revert st. induction sched as [|i sched IH]; intros st Hj; simpl; [done|].
  apply IH. by apply all_settle_filled.
Qed.

(** Settling position [j] of a fulfilled promise fills slot [j]. *)
Lemma all_settle_fills ps st j v :
  ps !! j = Some (Fulfilled v) ->
  (slots st !! j = Some None \/ slots st !! j = Some (Some v)) ->
  slots (all_settle ps st j) !! j = Some (Some v).
Proof.
  intros Hp [Hs|Hs]; unfold all_settle; rewrite Hs; [|done].
  rewrite Hp. simpl. apply list_lookup_insert_eq.
  by eapply lookup_lt_Some.
Qed.

Lemma all_settle_slot ps st i j v :
  ps !! j = Some (Fulfilled v) ->
  (slots st !! j = Some None \/ slots st !! j = Some (Some v)) ->
  slots (all_settle ps st i) !! j = Some None
  \/ slots (all_settle ps st i) !! j = Some (Some v).
Proof.
  intros Hp Hs.
  destruct (decide (i = j)) as [->|Hne].
  - right. by apply all_settle_fills.
  - destruct Hs as [Hs|Hs]; [|right; by apply all_settle_filled].
    unfold all_settle.
    destruct (slots st !! i) as [[?|]|] eqn:Hi; auto.
    destruct (ps !! i) as [[| w | e]|]; simpl; auto.
    left. by rewrite list_lookup_insert_ne.
Qed.

Lemma all_fold_fills ps sched st j v :
  ps !! j = Some (Fulfilled v) ->
  (slots st !! j = Some None \/ slots st !! j = Some (Some v)) ->
  j ∈ sched ->
  slots (foldl (all_settle ps) st sched) !! j = Some (Some v).
Proof.
  intros Hp. revert st.
  induction sched as [|i sched IH]; intros st Hs Hin; simpl.
  - by apply elem_of_nil in Hin.
  - apply elem_of_cons in Hin as [<-|Hin].
    + apply all_fold_filled. by apply all_settle_fills.
    + apply IH; [|done]. by apply all_settle_slot.
Qed.

Lemma mapM_id_None (l : list (option A)) i :
  l !! i = Some None -> mapM id l = None.
Proof.
  intros Hi. destruct (mapM id l) as [k|] eqn:Hk; [|done].
  apply mapM_Some in Hk.
  destruct (Forall2_lookup_l _ _ _ _ _ Hk Hi) as (y & _ & Hy). done.
Qed.

Lemma all_settle_mirrors ps st i :
  (forall e, ps !! i <> Some (Rejected e)) ->
  mirrors st -> mirrors (all_settle ps st i).
Proof.
  intros Hno Hm. unfold all_settle.
  destruct (slots st !! i) as [[?|]|] eqn:Hi; try done.
  destruct (ps !! i) as [[| v | e]|] eqn:Hp; try done.
  - unfold mirrors in *. simpl.
    rewrite (mapM_id_None _ _ Hi) in Hm. rewrite Hm.
    by destruct (mapM id _).
  - by destruct (Hno e).
Qed.

Lemma all_fold_mirrors ps sched st :
  (forall i e, ps !! i <> Some (Rejected e)) ->
  mirrors st -> mirrors (foldl (all_settle ps) st sched).
Proof.
  intros Hno. revert st.
  induction sched as [|i sched IH]; intros st Hm; simpl; [done|].
  apply IH. apply all_settle_mirrors; auto.
Qed.

Lemma mapM_id_Some (vs : list A) : mapM id (Some <$> vs) = Some vs.
Proof.
  apply mapM_Some. induction vs; simpl; constructor; auto.
Qed.

(** [Q.all] of fulfilled promises: the values in the order of the
    promises, whatever the order of completion. *)
Lemma all_fulfilled sched (vs : list A) :
  (forall i, i < length vs -> i ∈ sched) ->
  Q.all sched (Fulfilled <$> vs) = Fulfilled vs.
Proof.
  intros Hcover. unfold Q.all.
  destruct (Fulfilled <$> vs) as [|p ps'] eqn:Hps.
  { apply fmap_nil_inv in Hps. by subst. }
  assert (Hne : vs <> []) by (intros ->; done).
  rewrite <- Hps. clear p ps' Hps.
  set (ps := Fulfilled <$> vs).
  set (st0 := AllState (replicate (length ps) None) Pending).
  assert (Hlen : length ps = length vs) by (unfold ps; by rewrite length_fmap).
  assert (Hslots : slots (foldl (all_settle ps) st0 sched) = Some <$> vs).
  { apply list_eq. intros j. rewrite list_lookup_fmap.
    destruct (vs !! j) as [v|] eqn:Hv; simpl.
    - apply all_fold_fills.
      + unfold ps. by rewrite list_lookup_fmap, Hv.
      + left. simpl. apply lookup_replicate_2. rewrite Hlen.
        by eapply lookup_lt_Some.
      + apply Hcover. by eapply lookup_lt_Some.
    - apply lookup_ge_None. rewrite all_fold_length. simpl.
      rewrite length_replicate, Hlen. by apply lookup_ge_None. }
  assert (Hm : mirrors (foldl (all_settle ps) st0 sched)).
  { apply all_fold_mirrors.
    - intros i e. unfold ps. rewrite list_lookup_fmap.
      destruct (vs !! i); simpl; congruence.
    - unfold mirrors, st0. simpl.
      by destruct vs. }
  unfold mirrors in Hm. rewrite Hm, Hslots. by rewrite mapM_id_Some.
Qed.

Lemma all_settle_unresolved ps j e st i :
  ps !! j = Some (Rejected e) ->
  unresolved ps j st -> unresolved ps j (all_settle ps st i).
Proof.
  intros Hj [Hs Hd]. unfold all_settle.
  destruct (slots st !! i) as [[?|]|] eqn:Hi; try done.
  destruct (ps !! i) as [[| v | e']|] eqn:Hp; try done.
  - assert (i <> j) by congruence.
    assert (Hs' : <[i:=Some v]> (slots st) !! j = Some None)
      by (by rewrite list_lookup_insert_ne).
    split; simpl; [exact Hs'|]. by rewrite (mapM_id_None _ _ Hs').
  - split; simpl; [done|]. right.
    destruct Hd as [->|(e0 & j0 & -> & Hp0)]; simpl.
    + by exists e', i.
    + by exists e0, j0.
Qed.

Lemma all_settle_rejected ps j e st i :
  ps !! j = Some (Rejected e) ->
  unresolved ps j st ->
  i = j \/ rejected_by ps (deferred st) ->
  rejected_by ps (deferred (all_settle ps st i)).
Proof.
  intros Hj [Hs Hd] Hor.
  destruct (all_settle_unresolved ps j e st i Hj (conj Hs Hd)) as [_ Hd'].
  destruct Hd' as [Hd'|]; [|done].
  destruct Hor as [->|(e' & j' & Hr & ?)].
  - unfold all_settle in Hd'. rewrite Hs, Hj in Hd'. simpl in Hd'.
    by destruct (deferred st).
  - unfold all_settle in Hd'.
    destruct (slots st !! i) as [[?|]|]; try congruence.
    destruct (ps !! i) as [[| v | e'']|]; simpl in Hd'; try congruence.
    + rewrite Hr in Hd'. by destruct (mapM id _).
    + rewrite Hr in Hd'. done.
Qed.

Lemma all_fold_rejected ps j e sched st :
  ps !! j = Some (Rejected e) ->
  unresolved ps j st ->
  j ∈ sched \/ rejected_by ps (deferred st) ->
  rejected_by ps (deferred (foldl (all_settle ps) st sched)).
Proof.
  intros Hj. revert st.
  induction sched as [|i sched IH]; intros st Hu Hor; simpl.
  - destruct Hor as [Hin|]; [by apply elem_of_nil in Hin|done].
  - apply IH; [by eapply all_settle_unresolved|].
    destruct Hor as [Hin|Hr].
    + apply elem_of_cons in Hin as [->|Hin]; [|by left].
      right. eapply all_settle_rejected; eauto.
    + right. eapply all_settle_rejected; eauto.
Qed.

(** [Q.all] with a rejected promise: rejected, with the reason of one
    of the rejected promises. *)
Lemma all_rejected sched ps j e :
  ps !! j = Some (Rejected e) -> j ∈ sched ->
  exists e' j', Q.all sched ps = Rejected e' /\ ps !! j' = Some (Rejected e').
Proof.
  intros Hj Hin. unfold Q.all.
  destruct ps as [|p ps']; [done|].
  set (ps := p :: ps') in *.
  eapply (all_fold_rejected ps j e sched) in Hj as (e' & j' & Hd & Hp).
  - exists e', j'. split; [exact Hd|exact Hp].
  - split; cbn [slots deferred]; [|by left].
    apply lookup_replicate_2. by eapply lookup_lt_Some.
  - by left.
Qed.
End QAll.

(** ** Paged fetches (C3, C4) *)

Section Paging.
Import JS Eff Q GithubClient Notions.

(** An endpoint that reports [k] pages has pages [2 .. k] requested. *)
Lemma further_pages_last first l k :
  last_link first = Some l -> query_page l = Some k ->
  further_pages first = seqZ 2 (k - 1).
Proof. intros H1 H2. unfold further_pages, page_numbers. by rewrite H1, H2. Qed.

Variable fetch : jsval -> jsval -> W (promise response).

Lemma all_pages_fulfilled sched first pages d :
  Forall2 (fun i p => result (fetch (further_per_page first) (JNum i)) = Fulfilled p)
          (further_pages first) pages ->
  (forall i, i < length pages -> i ∈ sched) ->
  result (all_pages fetch sched (Fulfilled first) d)
  = d_resolve (with_id first ++ concat (map with_id pages)) d.
Proof.
  intros Hpages Hcover. unfold all_pages, further_pages, further_per_page in *.
  destruct (last_link first) as [l|].
  - rewrite result_bind, result_mapM.
    assert (Hps : map (fun i => result (fetch (query_per_page l) (JNum i)))
                      (page_numbers l) = Fulfilled <$> pages).
    { clear Hcover. induction Hpages as [|i p nums ps0 Hi _ IH]; [done|].
      simpl. f_equal; [exact Hi|exact IH]. }
    rewrite Hps, (all_fulfilled sched pages Hcover). done.
  - apply Forall2_nil_inv_l in Hpages. subst. simpl. by rewrite app_nil_r.
Qed.

Lemma all_pages_rejected sched first d i err :
  i ∈ further_pages first ->
  result (fetch (further_per_page first) (JNum i)) = Rejected err ->
  (forall j, j < length (further_pages first) -> j ∈ sched) ->
  exists i' err',
    i' ∈ further_pages first
    /\ result (fetch (further_per_page first) (JNum i')) = Rejected err'
    /\ result (all_pages fetch sched (Fulfilled first) d) = d_reject err' d.
Proof.
  intros Hin Hrej Hcover. unfold all_pages, further_pages, further_per_page in *.
  destruct (last_link first) as [l|]; [|by apply elem_of_nil in Hin].
  apply list_elem_of_lookup in Hin as [n Hn].
  set (ps := map (fun i => result (fetch (query_per_page l) (JNum i)))
                 (page_numbers l)).
  assert (Hpn : ps !! n = Some (Rejected err)).
  { unfold ps. rewrite list_lookup_fmap, Hn. simpl. by rewrite Hrej. }
  destruct (all_rejected sched ps n err Hpn) as (e' & j' & Hall & Hj').
  { apply Hcover. by eapply lookup_lt_Some. }
  unfold ps in Hj'. rewrite list_lookup_fmap in Hj'.
  destruct (page_numbers l !! j') as [i'|] eqn:Hi'; [|done].
  simpl in Hj'. injection Hj' as Hj'.
  exists i', e'. split; [|split; [done|]].
  - apply list_elem_of_lookup. by exists j'.
  - rewrite result_bind, result_mapM. fold ps. by rewrite Hall.
Qed.

(** The requests of a paged fetch: page 1 was requested by the caller,
    the further pages are requested in order. *)
Lemma all_pages_trace sched first d :
  trace (all_pages fetch sched (Fulfilled first) d)
  = concat (map (fun i => trace (fetch (further_per_page first) (JNum i)))
                (further_pages first)).
Proof.
  unfold all_pages, further_pages, further_per_page.
  destruct (last_link first) as [l|]; [|done].
  rewrite trace_bind, trace_mapM.
  destruct (Q.all _ _); simpl; by rewrite app_nil_r.
Qed.
End Paging.

Section PagedFetch.
Import JS Eff Q GithubClient Notions.
Variable github_list : request -> callback response.

Lemma covers_of_perm (sched : list nat) n :
  sched ≡ₚ seq 0 n -> forall i, i < n -> i ∈ sched.
Proof.
  intros Hp i Hi. rewrite Hp. apply elem_of_seq. lia.
Qed.

Lemma allRepos_all_pages sched org :
  allRepos github_list sched org
  = (first ← repos github_list org JUndefined JUndefined;
     all_pages (fun perPage page => repos github_list org perPage page)
               sched first Pending).
Proof. reflexivity. Qed.

Lemma allIssues_all_pages sched user repo labels milestone assignee :
  allIssues github_list sched user repo labels milestone assignee
  = (first ← issues github_list user repo JNull JNull labels milestone assignee;
     all_pages (fun perPage page =>
                  issues github_list user repo perPage page
                         labels milestone assignee)
               sched first (guarded user repo)).
Proof. reflexivity. Qed.

Lemma getAllUserEvents_all_pages sched user :
  getAllUserEvents github_list sched user
  = (first ← getUserEvents github_list user JNull;
     all_pages (fun _ page => getUserEvents github_list user page)
               sched first Pending).
Proof. reflexivity. Qed.

Lemma result_issues_guarded user repo perPage page labels milestone assignee :
  result (issues github_list user repo perPage page labels milestone assignee)
  = settle (github_list (issues_options user repo perPage page
                                        labels milestone assignee))
           (guarded user repo).
Proof. reflexivity. Qed.

Lemma guarded_truthy {A} user repo :
  truthy user = true -> truthy repo = true -> @guarded A user repo = Pending.
Proof. intros Hu Hr. unfold guarded, falsy. by rewrite Hu, Hr. Qed.

Lemma result_repos org perPage page :
  result (repos github_list org perPage page)
  = settle (github_list (repos_options org perPage page)) Pending.
Proof. reflexivity. Qed.

Lemma result_getUserEvents user page :
  result (getUserEvents github_list user page)
  = settle (github_list (events_options user page)) Pending.
Proof. reflexivity. Qed.

Lemma result_issues user repo perPage page labels milestone assignee :
  truthy user = true -> truthy repo = true ->
  result (issues github_list user repo perPage page labels milestone assignee)
  = settle (github_list (issues_options user repo perPage page
                                        labels milestone assignee)) Pending.
Proof.
  intros Hu Hr. unfold issues, falsy. rewrite Hu, Hr. reflexivity.
Qed.

Lemma Forall2_fetched {R} (req : Z -> R) (g : R -> callback response)
      (f : Z -> promise response) nums pages :
  (forall i, f i = settle (g (req i)) Pending) ->
  Forall2 (fun i p => g (req i) = CbOk p) nums pages ->
  Forall2 (fun i p => f i = Fulfilled p) nums pages.
Proof.
  intros Hf H. eapply Forall2_impl; [exact H|].
  intros i p Hi. simpl. by rewrite Hf, Hi.
Qed.

(** C3. A paged fetch resolves with the entries that carry an [id] of
    page 1, then of each further page in page order, whatever the order
    [sched] in which the requests for the further pages complete
    (position 0 of [sched] stands for page 2).  The further pages of an
    endpoint that reports [k] pages are the pages 2 to [k]. *)
Theorem paged_fetch_concatenates_pages (sched : list nat) :
  (forall org first pages,
      github_list (repos_options org JUndefined JUndefined) = CbOk first ->
      Forall2 (fun i p =>
                 github_list (repos_options org (further_per_page first) (JNum i))
                 = CbOk p)
              (further_pages first) pages ->
      sched ≡ₚ seq 0 (length pages) ->
      result (allRepos github_list sched org)
      = Fulfilled (with_id first ++ concat (map with_id pages)))
  /\ (forall user repo labels milestone assignee first pages,
      truthy user = true -> truthy repo = true ->
      github_list (issues_options user repo JNull JNull labels milestone assignee)
      = CbOk first ->
      Forall2 (fun i p =>
                 github_list (issues_options user repo (further_per_page first)
                                             (JNum i) labels milestone assignee)
                 = CbOk p)
              (further_pages first) pages ->
      sched ≡ₚ seq 0 (length pages) ->
      result (allIssues github_list sched user repo labels milestone assignee)
      = Fulfilled (with_id first ++ concat (map with_id pages)))
  /\ (forall user first pages,
      github_list (events_options user JNull) = CbOk first ->
      Forall2 (fun i p => github_list (events_options user (JNum i)) = CbOk p)
              (further_pages first) pages ->
      sched ≡ₚ seq 0 (length pages) ->
      result (getAllUserEvents github_list sched user)
      = Fulfilled (with_id first ++ concat (map with_id pages)))
  /\ (forall first parsedQuery k,
      last_link first = Some parsedQuery -> query_page parsedQuery = Some k ->
      further_pages first = seqZ 2 (k - 1)).
Proof.
  split; [|split; [|split]]; [| | |apply further_pages_last].
  - intros org first pages H1 Hp Hs.
    rewrite allRepos_all_pages, result_bind, result_repos, H1. simpl settle.
    rewrite (all_pages_fulfilled _ sched first pages); [done| |].
    + eapply Forall2_fetched; [|exact Hp]. intros i. apply result_repos.
    + by apply covers_of_perm.
  - intros user repo labels milestone assignee first pages Hu Hr H1 Hp Hs.
    rewrite allIssues_all_pages, guarded_truthy by done.
    rewrite result_bind, result_issues, H1 by done. simpl settle.
    rewrite (all_pages_fulfilled _ sched first pages); [done| |].
    + eapply Forall2_fetched; [|exact Hp]. intros i. by apply result_issues.
    + by apply covers_of_perm.
  - intros user first pages H1 Hp Hs.
    rewrite getAllUserEvents_all_pages.
    rewrite result_bind, result_getUserEvents, H1. simpl settle.
    rewrite (all_pages_fulfilled _ sched first pages); [done| |].
    + eapply (Forall2_fetched (fun i => events_options user (JNum i)));
        [|exact Hp].
      intros i. apply result_getUserEvents.
    + by apply covers_of_perm.
Qed.

Lemma settle_rejected_inv {A} (c : callback A) err :
  settle c Pending = Rejected err -> c = CbErr err.
Proof. destruct c; simpl; congruence. Qed.

Lemma result_issues_any user repo perPage page labels milestone assignee :
  result (issues github_list user repo perPage page labels milestone assignee)
  = settle (github_list (issues_options user repo perPage page
                                        labels milestone assignee)) Pending
  \/ exists msg,
      result (issues github_list user repo perPage page labels milestone assignee)
      = Rejected (JStr msg).
Proof.
  unfold issues, falsy.
  destruct (truthy user); simpl negb; cbv iota.
  - destruct (truthy repo); simpl negb; cbv iota; [by left|].
    right. eexists. simpl. by destruct (github_list _).
  - right. eexists. simpl.
    destruct (truthy repo); simpl; by destruct (github_list _).
Qed.

Lemma d_reject_rejected {A} e (d : promise A) :
  (d = Pending \/ exists e0, d = Rejected e0) ->
  exists e', d_reject e d = Rejected e'.
Proof. intros [->|[e0 ->]]; simpl; eauto. Qed.

Lemma issues_deferred user repo :
  @guarded (list object) user repo = Pending
  \/ exists e0, @guarded (list object) user repo = Rejected e0.
Proof.
  unfold guarded. destruct (falsy user), (falsy repo); simpl; eauto.
Qed.

(** C4. A paged fetch is rejected when the request for page 1 fails,
    and then no further request is made; it is rejected as well when
    the request for any of the further pages fails, whatever the order
    of completion. *)
Theorem paged_fetch_rejects_on_page_failure (sched : list nat) :
  (forall org err,
      github_list (repos_options org JUndefined JUndefined) = CbErr err ->
      allRepos github_list sched org
      = MkW (Rejected err) [ApiCall (repos_options org JUndefined JUndefined)])
  /\ (forall org first i err,
      github_list (repos_options org JUndefined JUndefined) = CbOk first ->
      i ∈ further_pages first ->
      github_list (repos_options org (further_per_page first) (JNum i))
      = CbErr err ->
      sched ≡ₚ seq 0 (length (further_pages first)) ->
      exists i' err',
        i' ∈ further_pages first
        /\ github_list (repos_options org (further_per_page first) (JNum i'))
           = CbErr err'
        /\ result (allRepos github_list sched org) = Rejected err')
  /\ (forall user repo labels milestone assignee err,
      github_list (issues_options user repo JNull JNull labels milestone assignee)
      = CbErr err ->
      trace (allIssues github_list sched user repo labels milestone assignee)
      = [ApiCall (issues_options user repo JNull JNull labels milestone assignee)]
      /\ exists err',
          result (allIssues github_list sched user repo labels milestone assignee)
          = Rejected err')
  /\ (forall user repo labels milestone assignee first i err,
      github_list (issues_options user repo JNull JNull labels milestone assignee)
      = CbOk first ->
      i ∈ further_pages first ->
      github_list (issues_options user repo (further_per_page first) (JNum i)
                                  labels milestone assignee)
      = CbErr err ->
      sched ≡ₚ seq 0 (length (further_pages first)) ->
      exists err',
        result (allIssues github_list sched user repo labels milestone assignee)
        = Rejected err')
  /\ (forall user err,
      github_list (events_options user JNull) = CbErr err ->
      getAllUserEvents github_list sched user
      = MkW (Rejected err) [ApiCall (events_options user JNull)])
  /\ (forall user first i err,
      github_list (events_options user JNull) = CbOk first ->
      i ∈ further_pages first ->
      github_list (events_options user (JNum i)) = CbErr err ->
      sched ≡ₚ seq 0 (length (further_pages first)) ->
      exists i' err',
        i' ∈ further_pages first
        /\ github_list (events_options user (JNum i')) = CbErr err'
        /\ result (getAllUserEvents github_list sched user) = Rejected err').
Proof.
  repeat apply conj.
  - intros org err H1. rewrite allRepos_all_pages. unfold repos.
    unfold mbind, W_bind. simpl. by rewrite H1.
  - intros org first i err H1 Hin Hi Hs.
    destruct (all_pages_rejected
                (fun perPage page => repos github_list org perPage page)
                sched first Pending i err Hin)
      as (i' & err' & Hin' & Hr' & Hres).
    + by rewrite result_repos, Hi.
    + by apply covers_of_perm.
    + exists i', err'. split; [done|]. split.
      * rewrite result_repos in Hr'. by apply settle_rejected_inv.
      * rewrite allRepos_all_pages, result_bind, result_repos, H1.
        exact Hres.
  - intros user repo labels milestone assignee err H1.
    rewrite allIssues_all_pages, trace_bind, result_bind.
    pose proof (issues_deferred user repo) as Hd.
    set (d := guarded user repo) in *.
    assert (exists e, result (issues github_list user repo JNull JNull
                                     labels milestone assignee) = Rejected e)
      as [e He].
    { destruct (result_issues_any user repo JNull JNull labels milestone assignee)
        as [Hr|[msg Hr]]; rewrite Hr; [rewrite H1|]; simpl; eauto. }
    rewrite He. split; [done|]. simpl. by apply d_reject_rejected.
  - intros user repo labels milestone assignee first i err H1 Hin Hi Hs.
    rewrite allIssues_all_pages, result_bind.
    pose proof (issues_deferred user repo) as Hd.
    set (d := guarded user repo) in *.
    destruct (result_issues_any user repo JNull JNull labels milestone assignee)
      as [Hr|[msg Hr]]; rewrite Hr.
    + rewrite H1. simpl settle.
      destruct (result_issues_any user repo (further_per_page first) (JNum i)
                                  labels milestone assignee)
        as [Hri|[msg Hri]].
      * destruct (all_pages_rejected
                    (fun perPage page =>
                       issues github_list user repo perPage page
                              labels milestone assignee)
                    sched first d i err Hin)
          as (i' & err' & _ & _ & Hres).
        { by rewrite Hri, Hi. }
        { by apply covers_of_perm. }
        rewrite Hres. by apply d_reject_rejected.
      * destruct (all_pages_rejected
                    (fun perPage page =>
                       issues github_list user repo perPage page
                              labels milestone assignee)
                    sched first d i (JStr msg) Hin Hri)
          as (i' & err' & _ & _ & Hres).
        { by apply covers_of_perm. }
        rewrite Hres. by apply d_reject_rejected.
    + simpl. by apply d_reject_rejected.
  - intros user err H1. rewrite getAllUserEvents_all_pages.
    unfold getUserEvents, mbind, W_bind. simpl. by rewrite H1.
  - intros user first i err H1 Hin Hi Hs.
    destruct (all_pages_rejected
                (fun _ page => getUserEvents github_list user page)
                sched first Pending i err Hin)
      as (i' & err' & Hin' & Hr' & Hres).
    + by rewrite result_getUserEvents, Hi.
    + by apply covers_of_perm.
    + exists i', err'. split; [done|]. split.
      * rewrite result_getUserEvents in Hr'. by apply settle_rejected_inv.
      * rewrite getAllUserEvents_all_pages.
        rewrite result_bind, result_getUserEvents, H1. exact Hres.
Qed.
End PagedFetch.

(** ** Argument guards (C8, C9, C10) *)

Section Guards.
Import JS Eff Q GithubClient Notions.
Variable github_list : request -> callback response.

(** C8. [issues] and [allIssues] reject with "No user specified" when
    [user] is falsy, and with "No repo specified" when [user] is truthy
    and [repo] is falsy. *)
Theorem issue_fetch_rejects_missing_user_or_repo
        (sched : list nat)
        (user repo perPage page labels milestone assignee : jsval)
        (msg : string) :
  (falsy user = true /\ msg = "No user specified")
  \/ (truthy user = true /\ falsy repo = true /\ msg = "No repo specified") ->
  result (issues github_list user repo perPage page labels milestone assignee)
  = Rejected (JStr msg)
  /\ result (allIssues github_list sched user repo labels milestone assignee)
     = Rejected (JStr msg).
Proof.
  intros Hcase.
  assert (Hsettle : forall (A : Type) (c : callback A) e,
             settle c (Rejected e) = Rejected e)
    by (intros A [?|?] e; reflexivity).
  assert (Hpages : forall fetch first e,
             result (all_pages fetch sched first (Rejected e)) = Rejected e).
  { intros fetch [|first|err] e; try reflexivity.
    unfold all_pages. destruct (last_link first); [|reflexivity].
    rewrite result_bind. by destruct (Q.all _ _). }
  assert (Hguard : forall A : Type, @guarded A user repo = Rejected (JStr msg)).
  { intros A. unfold guarded, falsy in *.
    destruct Hcase as [[Hu ->]|(Hu & Hr & ->)].
    - rewrite Hu. by destruct (negb (truthy repo)).
    - by rewrite Hu, Hr. }
  split.
  - rewrite result_issues_guarded, Hguard. apply Hsettle.
  - rewrite allIssues_all_pages, result_bind, Hguard. apply Hpages.
Qed.
End Guards.

Section GitGuards.
Import JS Eff Q GitHelper.
Variable exec : string -> jsval -> Subprocess.exec_result.
Variable process_cwd : jsval.
Variable verbose : jsval.

(** C9. With a falsy [cwd], [resetToMaster], [branchStatus] and
    [currentBranch] return a promise that is already rejected with
    "Invalid cwd: ..." and run no command; so does [createBranch], with
    "Invalid args: ...", when [branchname] or [cwd] is falsy. *)
Theorem git_helpers_reject_invalid_arguments (branchname cwd : jsval) :
  (falsy cwd = true ->
   resetToMaster exec process_cwd verbose cwd
   = MkW (Rejected (JStr ("Invalid cwd: " +:+ to_string cwd))) []
   /\ branchStatus exec process_cwd verbose cwd
      = MkW (Rejected (JStr ("Invalid cwd: " +:+ to_string cwd))) []
   /\ currentBranch exec process_cwd verbose cwd
      = MkW (Rejected (JStr ("Invalid cwd: " +:+ to_string cwd))) [])
  /\ (falsy branchname = true \/ falsy cwd = true ->
      createBranch exec process_cwd verbose branchname cwd
      = MkW (Rejected (JStr ("Invalid args: " +:+ to_string branchname))) []).
Proof.
  split.
  - intros Hc. unfold resetToMaster, branchStatus, currentBranch.
    rewrite Hc. done.
  - intros Hor. unfold createBranch.
    replace (falsy branchname || falsy cwd) with true; [done|].
    symmetry. apply orb_true_iff. exact Hor.
Qed.
End GitGuards.

Section Labels.
Import JS Eff Q GithubClient.
Variable github_do : request -> callback jsval.

(** C10. [createLabelInRepo] issues exactly one request, the creation
    of the label, with colour [ffffff] when [color] is falsy and with
    [color] itself otherwise. *)
Theorem label_colour_defaults_to_white (user repoName label color : jsval) :
  exists rest,
    trace (createLabelInRepo github_do user repoName label color)
    = ApiCall (IssuesCreateLabel user repoName label
                 (if truthy color then color else JStr "ffffff"))
      :: rest
    /\ forall r, ApiCall r ∉ rest.
Proof.
  unfold createLabelInRepo, js_or.
  destruct (github_do _); rewrite !trace_bind; cbn [trace tell mret W_ret app];
    eexists; (split; [reflexivity|]); intros r Hin;
    apply elem_of_cons in Hin as [Hin|Hin]; try discriminate Hin;
    by apply elem_of_nil in Hin.
Qed.
End Labels.

(** ** Deleting a milestone by title (C6) *)

Section DeleteMilestone.
Import JS Eff Q GithubClient Notions.
Variable github_list : request -> callback response.
Variable github_do : request -> callback jsval.

Lemma delete_matching_spec user repo milestone data :
  delete_matching user repo milestone data
  = (forallb (fun a => negb (strict_eq (get a "title") milestone)) data,
     map (fun a => IssuesDeleteMilestone user repo (get a "number"))
         (List.filter (fun a => strict_eq (get a "title") milestone) data)).
Proof.
  unfold delete_matching.
  assert (H : forall acc_flag acc_calls,
             foldl (fun st aMilestone =>
                      if strict_eq (get aMilestone "title") milestone
                      then (false, st.2 ++ [IssuesDeleteMilestone user repo
                                              (get aMilestone "number")])
                      else st)
                   (acc_flag, acc_calls) data
             = (acc_flag && forallb (fun a => negb (strict_eq (get a "title") milestone)) data,
                acc_calls ++ map (fun a => IssuesDeleteMilestone user repo (get a "number"))
                  (List.filter (fun a => strict_eq (get a "title") milestone) data))).
  { induction data as [|a data IH]; intros f c; simpl.
    - by rewrite andb_true_r, app_nil_r.
    - destruct (strict_eq (get a "title") milestone); simpl.
      + rewrite IH. simpl. by rewrite andb_false_r, <- app_assoc.
      + by rewrite IH. }
  rewrite H. done.
Qed.

Lemma delete_callbacks_trace user repo milestone calls d r :
  ApiCall r ∉ trace (foldlM (delete_callback github_do user repo milestone) d calls).
Proof.
  revert d. induction calls as [|c calls IH]; intros d; cbn [foldlM].
  - apply not_elem_of_nil.
  - rewrite trace_bind. intros Hin. apply elem_of_app in Hin as [Hin|Hin].
    + unfold delete_callback in Hin. destruct (github_do c);
        rewrite trace_bind in Hin; cbn [trace tell mret W_ret app] in Hin;
        apply elem_of_cons in Hin as [Hin|Hin]; try discriminate Hin;
        by apply elem_of_nil in Hin.
    + by eapply IH.
Qed.

Lemma deleteMilestoneInRepo_listed user repo milestone data :
  github_list (IssuesGetAllMilestones user repo JUndefined JUndefined)
  = CbOk data ->
  let calls := map (fun a => IssuesDeleteMilestone user repo (get a "number"))
                   (List.filter (titled milestone) (items data)) in
  deleteMilestoneInRepo github_list github_do user repo milestone
  = (_ ← tell [ApiCall (IssuesGetAllMilestones user repo JUndefined JUndefined)];
     _ ← tell (map ApiCall calls);
     if forallb (fun a => negb (titled milestone a)) (items data)
     then _ ← tell [ConsoleLog (not_found_message user repo milestone)];
          mret (Rejected (JStr (not_found_message user repo milestone)))
     else foldlM (delete_callback github_do user repo milestone) Pending calls).
Proof.
  intros Hlist calls.
  unfold deleteMilestoneInRepo, milestonesInRepo, mbind, W_bind, mret, W_ret.
  cbn [result trace tell]. rewrite Hlist. cbn [settle d_resolve].
  rewrite delete_matching_spec. reflexivity.
Qed.

Lemma delete_calls_inv user repo milestone data u r n :
  IssuesDeleteMilestone u r n
  ∈ map (fun a => IssuesDeleteMilestone user repo (get a "number"))
        (List.filter (titled milestone) data) ->
  u = user /\ r = repo
  /\ exists a, a ∈ data /\ titled milestone a = true /\ n = get a "number".
Proof.
  intros Hin. apply list_elem_of_fmap in Hin as (a & Heq & Ha).
  injection Heq as -> -> ->. split; [done|split; [done|]].
  exists a. apply list_elem_of_In, filter_In in Ha as [Ha Ht].
  split; [by apply list_elem_of_In|done].
Qed.

(** C6. When the listing of a repository holds no milestone with the
    given title, [deleteMilestoneInRepo] rejects with "No milestone
    named ... found in ..." and makes no deletion call.  In any case
    it makes one deletion call per milestone with that title, with the
    number of that milestone, and no other. *)
Theorem delete_milestone_by_title (user repo milestone : jsval)
        (milestonesData : response) :
  github_list (IssuesGetAllMilestones user repo JUndefined JUndefined)
  = CbOk milestonesData ->
  let run := deleteMilestoneInRepo github_list github_do user repo milestone in
  (Forall (fun a => strict_eq (get a "title") milestone = false)
          (items milestonesData) ->
   result run
   = Rejected (JStr ("No milestone named " +:+ to_string milestone
                     +:+ " found in " +:+ to_string user +:+ "/"
                     +:+ to_string repo))
   /\ forall u r n, ApiCall (IssuesDeleteMilestone u r n) ∉ trace run)
  /\ (forall a, a ∈ items milestonesData ->
      strict_eq (get a "title") milestone = true ->
      ApiCall (IssuesDeleteMilestone user repo (get a "number")) ∈ trace run)
  /\ (forall u r n,
      ApiCall (IssuesDeleteMilestone u r n) ∈ trace run ->
      u = user /\ r = repo
      /\ exists a, a ∈ items milestonesData
                   /\ strict_eq (get a "title") milestone = true
                   /\ n = get a "number").
Proof.
  intros Hlist run. subst run.
  rewrite (deleteMilestoneInRepo_listed _ _ _ _ Hlist).
  set (calls := map _ (List.filter (titled milestone) (items milestonesData))).
  assert (Hlater : forall u r n,
             ApiCall (IssuesDeleteMilestone u r n)
             ∉ trace (if forallb (fun a => negb (titled milestone a))
                                 (items milestonesData)
                      then _ ← tell [ConsoleLog (not_found_message user repo milestone)];
                           mret (Rejected (JStr (not_found_message user repo milestone)))
                      else foldlM (delete_callback github_do user repo milestone)
                                  Pending calls)).
  { intros u r n. destruct (forallb _ _).
    - rewrite trace_bind. cbn [trace tell mret W_ret app]. intros Hin.
      apply elem_of_cons in Hin as [Hin|Hin]; [discriminate Hin|].
      by apply elem_of_nil in Hin.
    - apply delete_callbacks_trace. }
  assert (Htrace : forall u r n,
             ApiCall (IssuesDeleteMilestone u r n)
             ∈ trace (_ ← tell [ApiCall (IssuesGetAllMilestones user repo
                                           JUndefined JUndefined)];
                      _ ← tell (map ApiCall calls);
                      if forallb (fun a => negb (titled milestone a))
                                 (items milestonesData)
                      then _ ← tell [ConsoleLog (not_found_message user repo milestone)];
                           mret (Rejected (JStr (not_found_message user repo milestone)))
                      else foldlM (delete_callback github_do user repo milestone)
                                  Pending calls)
             <-> IssuesDeleteMilestone u r n ∈ calls).
  { intros u r n. rewrite !trace_bind. cbn [trace tell app].
    rewrite elem_of_cons, elem_of_app, list_elem_of_fmap. split.
    - intros [Heq|[(c & Heq & Hc)|Hin]].
      + discriminate Heq.
      + by injection Heq as <-.
      + by apply Hlater in Hin.
    - intros Hin. right. left. eexists. split; [reflexivity|exact Hin]. }
  split; [|split].
  - intros Hnone.
    assert (Hall : forallb (fun a => negb (titled milestone a))
                           (items milestonesData) = true).
    { apply forallb_forall. intros a Ha.
      rewrite Forall_forall in Hnone. unfold titled.
      rewrite Hnone; [done|by apply list_elem_of_In]. }
    split.
    + rewrite !result_bind, Hall. reflexivity.
    + intros u r n Hin. apply Htrace, delete_calls_inv in Hin
        as (_ & _ & a & Ha & Ht & _).
      rewrite Forall_forall in Hnone. unfold titled in Ht.
      rewrite (Hnone a Ha) in Ht. done.
  - intros a Ha Ht. apply Htrace. unfold calls. apply list_elem_of_fmap.
    exists a. split; [done|].
    apply list_elem_of_In, filter_In. split; [by apply list_elem_of_In|done].
  - intros u r n Hin. apply Htrace in Hin. by apply delete_calls_inv.
Qed.
(** When the milestones cannot be listed nothing settles the promise:
    the listing has a [.then] and no rejection handler. *)
Lemma delete_milestone_listing_fails user repo milestone err :
  github_list (IssuesGetAllMilestones user repo JUndefined JUndefined)
  = CbErr err ->
  deleteMilestoneInRepo github_list github_do user repo milestone
  = MkW Pending [ApiCall (IssuesGetAllMilestones user repo JUndefined JUndefined)].
Proof.
  intros Hlist.
  unfold deleteMilestoneInRepo, milestonesInRepo, mbind, W_bind, mret, W_ret.
  cbn [result trace tell]. rewrite Hlist. reflexivity.
Qed.
End DeleteMilestone.

(** ** The pattern of the manifest rewrite *)

Section RegexFacts.
Import Regex.

Lemma strip_prefix_sound l s s' :
  strip_prefix l s = Some s' -> s = l ++ s'.
Proof.
  revert s. induction l as [|a l IH]; intros s H; simpl in H.
  - by injection H as ->.
  - destruct s as [|b s]; [done|].
    destruct (Ascii.eqb_spec a b) as [->|]; [|done].
    simpl. f_equal. by apply IH.
Qed.

Context {R : Type}.
Implicit Types (k : list ascii -> option R) (cls : ascii -> bool).

(** When a greedy repetition fails, every way of splitting off a run
    of the class fails. *)
Lemma star_none cls s k :
  star cls s k = None ->
  forall pre post,
    s = pre ++ post -> Forall (fun c => cls c = true) pre -> k post = None.
Proof.
  induction s as [|c s IH]; simpl; intros H pre post Hs Hpre.
  - symmetry in Hs. apply app_eq_nil in Hs as [-> ->]. done.
  - destruct pre as [|c' pre]; simpl in Hs.
    + subst post. destruct (cls c); [|done].
      by destruct (star cls s k).
    + injection Hs as Hc' Hs'. subst c' s.
      apply Forall_cons in Hpre as [Hc Hpre].
      rewrite Hc in H. destruct (star cls (pre ++ post) k) eqn:E; [done|].
      by eapply IH.
Qed.

(** When it succeeds, the result is the one of the longest run for
    which the continuation succeeds. *)
Lemma star_first cls s k r :
  star cls s k = Some r ->
  exists pre post,
    s = pre ++ post
    /\ Forall (fun c => cls c = true) pre
    /\ k post = Some r
    /\ forall pre' post',
        s = pre' ++ post' -> Forall (fun c => cls c = true) pre' ->
        length pre < length pre' -> k post' = None.
Proof.
  revert r. induction s as [|c s IH]; simpl; intros r H.
  - exists [], []. repeat split; [constructor|done|].
    intros pre' post' Hs _ Hlen. symmetry in Hs.
    apply app_eq_nil in Hs as [-> ->]. simpl in Hlen. lia.
  - destruct (cls c) eqn:Hc.
    + destruct (star cls s k) as [r'|] eqn:E.
      * injection H as ->.
        destruct (IH r eq_refl) as (pre & post & -> & Hpre & Hk & Hfirst).
        exists (c :: pre), post. repeat split; [by constructor|done|].
        intros pre' post' Hs Hpre' Hlen.
        destruct pre' as [|c' pre']; simpl in *; [lia|].
        injection Hs as Hc' Hs. subst c'.
        apply Forall_cons in Hpre' as [_ Hpre'].
        eapply Hfirst; [done|done|lia].
      * exists [], (c :: s). repeat split; [constructor|done|].
        intros pre' post' Hs Hpre' Hlen.
        destruct pre' as [|c' pre']; simpl in *; [lia|].
        injection Hs as Hc' Hs. subst c'.
        apply Forall_cons in Hpre' as [_ Hpre'].
        by eapply star_none.
    + exists [], (c :: s). repeat split; [constructor|done|].
      intros pre' post' Hs Hpre' Hlen.
      destruct pre' as [|c' pre']; simpl in *; [lia|].
      injection Hs as Hcc Hs. subst c'.
      apply Forall_cons in Hpre' as [Hc' _].
      congruence.
Qed.
End RegexFacts.

Section Anchored.
Import Regex.

(** A pattern that starts with [^] can only match at position 0. *)
Lemma run_bos {R} r whole s c (k : list ascii -> captures -> option R) :
  run whole (Cat Bos r) s c k
  = if (length s =? length whole)%nat then run whole r s c k else None.
Proof. reflexivity. Qed.

Lemma exec_from_anchored r whole s :
  length s < length whole -> exec_from (Cat Bos r) whole s = None.
Proof.
  induction s as [|c s IH]; intros Hlen; cbn [exec_from]; rewrite run_bos.
  - destruct (Nat.eqb_spec (length (@nil ascii)) (length whole)) as [E|];
      [simpl in E; lia|done].
  - destruct (Nat.eqb_spec (length (c :: s)) (length whole)) as [E|];
      [lia|].
    apply IH. simpl in Hlen. lia.
Qed.

Lemma exec_anchored r subject :
  exec (Cat Bos r) subject
  = run (list_ascii_of_string subject) r (list_ascii_of_string subject) []
        (fun _ c => Some c).
Proof.
  unfold exec. set (w := list_ascii_of_string subject).
  destruct w as [|c w'] eqn:E; cbn [exec_from]; rewrite run_bos, Nat.eqb_refl.
  - by destruct (run [] r [] [] _).
  - destruct (run (c :: w') r (c :: w') [] _); [done|].
    apply exec_from_anchored. simpl. lia.
Qed.
End Anchored.

Section RepoRegex.
Import Regex GitHelper Notions.

Lemma branch_is_name c : branch_class c = true -> name_class c = true.
Proof. unfold branch_class, name_class. intros ->. done. Qed.

Lemma take_prefix {A} (l1 l2 : list A) n :
  n = length l1 -> take n (l1 ++ l2) = l1.
Proof. intros ->. by rewrite take_app_length. Qed.

(** What a match of [repoRegex] looks like. *)
Lemma repoRegex_match v m :
  exec repoRegex v = Some m ->
  exists mid m2 hs m3,
    list_ascii_of_string v = (scheme ++ mid ++ owner) ++ m2 ++ hs ++ m3
    /\ m = [(3, m3); (2, m2); (1, scheme ++ mid ++ owner)]
    /\ Forall (fun c => dot c = true) mid
    /\ m2 <> []
    /\ Forall (fun c => name_class c = true) m2
    /\ Forall (fun c => is_char "#" c = true) hs
    /\ Forall (fun c => branch_class c = true) m3
    /\ (hs = [] -> m3 = []).
Proof.
  intros H. unfold repoRegex in H. rewrite exec_anchored in H.
  set (w := list_ascii_of_string v) in *.
  cbn [run] in H.
  destruct (strip_prefix (list_ascii_of_string "git+https") w) as [s1|] eqn:E1;
    [|done].
  apply strip_prefix_sound in E1.
  apply star_first in H as (mid & s2 & -> & Hmid & H & _).
  destruct (strip_prefix (list_ascii_of_string "/RackHD/") s2) as [t|] eqn:E2;
    [|done].
  apply strip_prefix_sound in E2. subst s2.
  destruct t as [|a t']; [done|].
  destruct (name_class a) eqn:Ha; [|done].
  apply star_first in H as (pre & x & -> & Hpre & H & Hfirst).
  assert (Hx := H).
  apply star_first in H as (hs & y & -> & Hhs & H & _).
  apply star_first in H as (m3 & z & -> & Hm3 & H & _).
  destruct z as [|? ?]; [|done]. injection H as <-.
  rewrite app_nil_r in *.
  exists mid, (a :: pre), hs, m3.
  fold scheme owner in *.
  assert (Hw : w = (scheme ++ mid ++ owner) ++ (a :: pre) ++ hs ++ m3).
  { rewrite E1. by rewrite <- !app_assoc. }
  split; [exact Hw|]. split.
  { f_equal; [|f_equal; [|f_equal]].
    - f_equal. rewrite <- (app_nil_r m3) at 2.
      apply take_prefix. lia.
    - f_equal. apply (take_prefix (a :: pre) (hs ++ m3)).
      rewrite !length_app. simpl. lia.
    - f_equal. rewrite Hw at 2. apply take_prefix.
      rewrite Hw, !length_app. simpl. rewrite ?length_app. lia. }
  split; [done|]. split; [done|]. split; [by constructor|].
  split; [done|]. split; [done|].
  intros ->. simpl in *.
  destruct m3 as [|b m3']; [done|]. exfalso.
  specialize (Hfirst (pre ++ b :: m3') [] ltac:(by rewrite app_nil_r)).
  simpl in Hfirst. discriminate Hfirst.
  - apply Forall_app. split; [done|].
    eapply Forall_impl; [exact Hm3|]. apply branch_is_name.
  - rewrite length_app. simpl. lia.
Qed.
End RepoRegex.

(** ** Objects as dictionaries: reading and overwriting *)

Section PobjFacts.
Import JS.
Context {V : Type}.
Implicit Types (o : pobj V) (k : string).



Lemma pobj_keys_replace k f o : pobj_keys (pobj_replace k f o) = pobj_keys o.
Proof.
  unfold pobj_keys. induction o as [|[k' v'] o IH]; simpl; [done|].
  destruct (String.eqb k' k); simpl; by rewrite ?IH.
Qed.

Lemma pobj_has_get o k : pobj_has o k = true <-> is_Some (pobj_get o k).
Proof.
  unfold pobj_has, pobj_get. induction o as [|[k' v'] o IH]; simpl.
  - split; [done|]. by intros [? ?].
  - destruct (String.eqb k' k); simpl; [|exact IH]. split; eauto.
Qed.


Lemma pobj_set_existing k v o :
  pobj_has o k = true -> pobj_set k v o = pobj_replace k (fun _ => v) o.
Proof. intros H. unfold pobj_set. by rewrite H. Qed.
End PobjFacts.

Section StringFacts.
Lemma string_of_list_ascii_app l1 l2 :
  string_of_list_ascii (l1 ++ l2)
  = string_of_list_ascii l1 +:+ string_of_list_ascii l2.
Proof. induction l1 as [|c l1 IH]; simpl; [done|]. by rewrite IH. Qed.


Lemma append_assoc (s1 s2 s3 : string) :
  (s1 +:+ s2) +:+ s3 = s1 +:+ (s2 +:+ s3).
Proof.
  induction s1 as [|c s1 IH]; [done|].
  change ((String c s1 +:+ s2) +:+ s3) with (String c ((s1 +:+ s2) +:+ s3)).
  by rewrite IH.
Qed.

End StringFacts.

(** ** The manifest rewrite (C5) *)

Section Rewrite.
Import JS Eff Regex GitHelper Notions.
Variables (warn_prefix what : string) (cwd branchname verbose : jsval).





End Rewrite.

Section RewriteKeys.
Import JS Eff Regex GitHelper Notions.
Variables (warn_prefix what : string) (cwd branchname verbose : jsval).

Lemma rewrite_entry_keys c k :
  pobj_keys (result (rewrite_entry warn_prefix what cwd branchname verbose c k))
  = pobj_keys c.
Proof.
  unfold rewrite_entry.
  destruct (pobj_get c k) as [value|] eqn:Hget; [|done].
  destruct (exec repoRegex (to_string value)) as [m|]; [|done].
  destruct (truthy (JStr (group 3 m))); [done|].
  rewrite !result_bind. cbn [result mret W_ret].
  rewrite pobj_set_existing by (apply pobj_has_get; by rewrite Hget).
  apply pobj_keys_replace.
Qed.

Lemma rewrite_fold_keys ks c :
  pobj_keys (result (foldlM (rewrite_entry warn_prefix what cwd branchname verbose)
                            c ks))
  = pobj_keys c.
Proof.
  revert c. induction ks as [|k ks IH]; intros c; cbn [foldlM]; [done|].
  by rewrite result_bind, IH, rewrite_entry_keys.
Qed.
End RewriteKeys.

Section RepoRegexStrings.
Import JS Eff Regex GitHelper Notions.




Lemma rewritten_unpinned branchname value m :
  exec repoRegex (to_string value) = Some m -> group 3 m = "" ->
  rewritten branchname value
  = JStr (group 1 m +:+ group 2 m +:+ "#" +:+ to_string branchname).
Proof. intros Hm He. unfold rewritten. by rewrite Hm, He. Qed.


(** A matched value without any [#] gets [#] and the branch name
    appended. *)
Lemma unpinned_value_gets_branch_appended branchname v m :
  exec repoRegex v = Some m ->
  "#"%char ∉ list_ascii_of_string v ->
  group 3 m = ""
  /\ rewritten branchname (JStr v) = JStr (v +:+ "#" +:+ to_string branchname).
Proof.
  intros Hm Hno.
  destruct (repoRegex_match v m Hm)
    as (mid & m2 & hs & m3 & Hv & Hcaps & _ & _ & _ & Hhs & _ & Hprio).
  assert (Hnil : hs = []).
  { destruct hs as [|c hs]; [done|]. destruct Hno.
    apply Forall_cons in Hhs as [Hc _]. unfold is_char in Hc.
    apply Ascii.eqb_eq in Hc. subst c. rewrite Hv.
    apply elem_of_app. right. apply elem_of_app. right. by left. }
  subst hs. specialize (Hprio eq_refl). subst m3.
  assert (H3 : group 3 m = "") by (by subst m).
  split; [exact H3|].
  rewrite (rewritten_unpinned branchname (JStr v) m) by done.
  f_equal. rewrite <- append_assoc. f_equal.
  cbn [to_string]. subst m.
  change (group 1 [(3, []); (2, m2); (1, scheme ++ mid ++ owner)])
    with (string_of_list_ascii (scheme ++ mid ++ owner)).
  change (group 2 [(3, []); (2, m2); (1, scheme ++ mid ++ owner)])
    with (string_of_list_ascii m2).
  rewrite <- string_of_list_ascii_app.
  rewrite <- (string_of_list_ascii_of_string v), Hv.
  by rewrite !app_nil_r.
Qed.
End RepoRegexStrings.

Section UpdatePackage.
Import JS Eff Q Regex GitHelper Notions.
Variable exec_cmd : string -> jsval -> Subprocess.exec_result.
Variable process_cwd : jsval.
Variable verbose : jsval.
Variable readFile : string -> callback string.
Variable JSON_parse : string -> callback packagedata.
Variable writeFile : string -> packagedata -> callback unit.




End UpdatePackage.

(** ** Objects as dictionaries: creating properties *)

Section PobjSet.
Import JS.
Context {V : Type}.
Implicit Types (o : pobj V) (k : string).









End PobjSet.

Section FilterFacts.
Import JS.


End FilterFacts.

(** ** Grouping by label name and milestone title (C7) *)

Section Grouping.
Import JS Eff GithubClient Notions.
Variable field : string.
Implicit Types (o : pobj (list object)) (x : object) (k : string).





End Grouping.

Section GroupingClaim.
Import JS Eff GithubClient Notions.



End GroupingClaim.

(** ** The code at the inputs where C7, C1 and C2 fail *)

Section Counterexamples.
Import JS Eff Q GithubClient Notions Examples.


(** C1 at a failing input: two repositories, the label is created in
    [a] and refused in [b].  The mapping holds a single entry, under
    the text every object is coerced to. *)
Theorem createLabels_two_repositories :
  result (createLabels two_repos create_in_a [] (JStr "acme") (JStr "bug"))
  = Fulfilled [("[object Object]", StateRejected not_found)].
Proof. vm_compute. reflexivity. Qed.

(** C2 at a failing input: the labels of [a] are listed, those of [b]
    are not.  The promise of [listLabels] is never settled, nothing is
    logged, and the error is rethrown by [.done()]. *)
Theorem listLabels_one_repository_fails :
  listLabels two_repos [] [0; 1] (JStr "acme")
  = MkW Pending
        [ApiCall (ReposGetFromOrg (JStr "acme") (JNum 100) (JNum 1));
         ApiCall (IssuesGetLabels (JStr "acme") (JStr "a") (JNum 100) (JNum 1));
         ApiCall (IssuesGetLabels (JStr "acme") (JStr "b") (JNum 100) (JNum 1));
         Uncaught not_found].
Proof. vm_compute. reflexivity. Qed.
End Counterexamples.

(** ** Fan-out over the repositories (C1, C2) *)

Section ZipObject.
Import JS Eff Notions.
Context {V : Type}.

(** Objects as property names: every key is the same text, so each
    assignment overwrites the one before. *)
Lemma zipObject_objects_fold (repoList : list object) (results : list V) v0 :
  length repoList = length results ->
  foldl (fun o kv => pobj_set (to_string kv.1) kv.2 o)
        [("[object Object]", v0)] (zip (map JObj repoList) results)
  = [("[object Object]", default v0 (last results))].
Proof.
  revert results v0.
  induction repoList as [|r repoList IH]; intros [|v results] v0 Hlen;
    try done.
  cbn [map zip zip_with foldl fst snd to_string].
  change (pobj_set "[object Object]" v [("[object Object]", v0)])
    with [("[object Object]", v)].
  rewrite IH by (simpl in Hlen; lia).
  destruct results as [|w results]; [done|].
  rewrite last_cons_cons.
  destruct (last (w :: results)) as [x|] eqn:E; [done|].
  by apply last_None in E.
Qed.

Lemma zipObject_objects (repoList : list object) (results : list V) :
  length repoList = length results ->
  zipObject (map JObj repoList) results
  = match last results with
    | Some v => [("[object Object]", v)]
    | None => []
    end.
Proof.
  intros Hlen. unfold zipObject.
  destruct repoList as [|r repoList], results as [|v results]; try done.
  cbn [map zip zip_with foldl fst snd to_string].
  change (pobj_set "[object Object]" v []) with [("[object Object]", v)].
  rewrite zipObject_objects_fold by (simpl in Hlen; lia).
  destruct results as [|w results]; [done|].
  rewrite last_cons_cons.
  destruct (last (w :: results)) as [x|] eqn:E; [done|].
  by apply last_None in E.
Qed.


End ZipObject.

Section Settled.
Import JS Eff Q.
Context {A : Type}.

Lemma allSettled_settled (ps : list (promise A)) :
  Forall (fun p => p <> Pending) ps ->
  exists snaps,
    allSettled ps = Fulfilled snaps
    /\ Forall2 (fun p s => inspect p = Some s) ps snaps.
Proof.
  intros Hs. unfold allSettled.
  assert (Hex : existsb is_pending ps = false).
  { induction Hs as [|p ps Hp _ IH]; [done|].
    simpl. rewrite IH. by destruct p. }
  rewrite Hex.
  exists (omap inspect ps). split; [done|].
  induction Hs as [|p ps Hp Hs IH]; [constructor|].
  simpl in Hex. apply orb_false_iff in Hex as [_ Hex].
  destruct p as [|v|e]; [done| |]; cbn; constructor; auto.
Qed.
End Settled.

Section FanOut.
Import JS Eff Q GithubClient Notions.
Variable github_list : request -> callback response.
Variable github_do : request -> callback jsval.

Lemma fan_out_result op (log_repos log_results : bool) sched org repoList :
  result (allRepos github_list sched org) = Fulfilled repoList ->
  Forall (fun r => result (op r) <> Pending) repoList ->
  exists snaps,
    Forall2 (fun r s => inspect (result (op r)) = Some s) repoList snaps
    /\ result (fan_out github_list op log_repos log_results sched org)
       = Fulfilled (zipObject (map JObj repoList) snaps).
Proof.
  intros Hrepos Hsettled.
  destruct (allSettled_settled (map (fun x => result (op x)) repoList))
    as (snaps & Hall & Hsn).
  { by apply Forall_fmap. }
  exists snaps. split.
  - by apply Forall2_fmap_l in Hsn.
  - unfold fan_out.
    destruct (allRepos github_list sched org) as [rp tr].
    cbn [result] in Hrepos. subst rp.
    rewrite result_bind. cbn [result].
    rewrite !result_bind, result_mapM. unfold compact.
    rewrite Hall. by rewrite !result_bind.
Qed.

(** Whatever the number of repositories, the mapping built by the
    mutating fan-outs has at most one entry. *)
Lemma fan_out_single_entry op (log_repos log_results : bool) sched org repoList :
  result (allRepos github_list sched org) = Fulfilled repoList ->
  Forall (fun r => result (op r) <> Pending) repoList ->
  exists qq,
    result (fan_out github_list op log_repos log_results sched org)
    = Fulfilled qq
    /\ length qq <= 1
    /\ forall k, k ∈ pobj_keys qq -> k = "[object Object]".
Proof.
  intros Hrepos Hsettled.
  destruct (fan_out_result op log_repos log_results sched org repoList
                           Hrepos Hsettled) as (snaps & Hsn & Hres).
  rewrite zipObject_objects in Hres by (by eapply Forall2_length).
  eexists. split; [exact Hres|].
  destruct (last snaps); simpl; split; try lia.
  - intros k Hk. by apply list_elem_of_singleton in Hk.
  - intros k Hk. by apply elem_of_nil in Hk.
Qed.

(** A repository whose operation never settles keeps the whole fan-out
    pending. *)
Lemma fan_out_pending op (log_repos log_results : bool) sched org repoList r :
  result (allRepos github_list sched org) = Fulfilled repoList ->
  r ∈ repoList -> result (op r) = Pending ->
  result (fan_out github_list op log_repos log_results sched org) = Pending.
Proof.
  intros Hrepos Hr Hp. unfold fan_out.
  destruct (allRepos github_list sched org) as [rp tr].
  cbn [result] in Hrepos. subst rp.
  rewrite result_bind. cbn [result].
  rewrite !result_bind, result_mapM. unfold compact, allSettled.
  assert (Hex : existsb is_pending (map (fun x => result (op x)) repoList) = true).
  { apply existsb_exists. exists (result (op r)). split; [|by rewrite Hp].
    apply (in_map (fun x => result (op x))). by apply list_elem_of_In. }
  by rewrite Hex.
Qed.

(** The four fan-outs are instances of the shared shape. *)
Lemma createLabels_fan_out sched org label :
  createLabels github_list github_do sched org label
  = fan_out github_list
            (fun repo => createLabelInRepo github_do org (get repo "name")
                                           label JUndefined)
            false false sched org.
Proof. reflexivity. Qed.

Lemma deleteLabels_fan_out sched org label :
  deleteLabels github_list github_do sched org label
  = fan_out github_list
            (fun repo => deleteLabelInRepo github_do org (get repo "name") label)
            false false sched org.
Proof. reflexivity. Qed.

Lemma createMilestones_fan_out sched org milestone :
  createMilestones github_list github_do sched org milestone
  = fan_out github_list
            (fun repo => createMilestoneInRepo github_do org (get repo "name")
                                               milestone)
            true true sched org.
Proof. reflexivity. Qed.

Lemma deleteMilestones_fan_out sched org milestone :
  deleteMilestones github_list github_do sched org milestone
  = fan_out github_list
            (fun repo => deleteMilestoneInRepo github_list github_do org
                                               (get repo "name") milestone)
            false false sched org.
Proof. reflexivity. Qed.

(** X18.  One repository whose milestones cannot be listed is enough to
    keep [deleteMilestones] from ever settling. *)
Lemma deleteMilestones_never_settles sched org milestone repoList r err :
  result (allRepos github_list sched org) = Fulfilled repoList ->
  r ∈ repoList ->
  github_list (IssuesGetAllMilestones org (get r "name") JUndefined JUndefined)
  = CbErr err ->
  result (deleteMilestones github_list github_do sched org milestone) = Pending.
Proof.
  intros Hrepos Hr Herr. rewrite deleteMilestones_fan_out.
  apply (fan_out_pending _ _ _ _ _ repoList r Hrepos Hr).
  by rewrite (delete_milestone_listing_fails _ _ _ _ _ err).
Qed.

Lemma createLabelInRepo_settled user repoName label color :
  result (createLabelInRepo github_do user repoName label color) <> Pending.
Proof.
  unfold createLabelInRepo. rewrite result_bind.
  destruct (github_do _); rewrite result_bind; done.
Qed.

Lemma createLabels_single_entry sched org label repoList :
  result (allRepos github_list sched org) = Fulfilled repoList ->
  exists qq,
    result (createLabels github_list github_do sched org label) = Fulfilled qq
    /\ length qq <= 1
    /\ forall k, k ∈ pobj_keys qq -> k = "[object Object]".
Proof.
  intros Hrepos. rewrite createLabels_fan_out.
  apply (fan_out_single_entry _ _ _ _ _ repoList Hrepos).
  apply Forall_forall. intros r _. apply createLabelInRepo_settled.
Qed.
End FanOut.

Section Listing.
Import JS Eff Q GithubClient Notions.
Variable github_list : request -> callback response.




End Listing.

(* ================================================================== *)
(** * Further properties of the helpers *)
(* ================================================================== *)

(** ** Sequences of git commands *)

Section Chains.
Import JS Eff Q GitHelper Notions.
Variable exec : string -> jsval -> Subprocess.exec_result.
Variable process_cwd : jsval.
Variable verbose : jsval.

Lemma W_bind_assoc {A B C} (m : W A) (f : A -> W B) (g : B -> W C) :
  (m ≫= f) ≫= g = m ≫= (fun x => f x ≫= g).
Proof.
  unfold mbind, W_bind. cbn [result trace]. f_equal. by rewrite app_assoc.
Qed.

Lemma execs_app tr1 tr2 : execs (tr1 ++ tr2) = execs tr1 ++ execs tr2.
Proof. apply List.filter_app. Qed.

Lemma sh_result command cwd :
  result (sh exec process_cwd verbose command cwd)
  = outcome exec command (js_or cwd process_cwd).
Proof.
  unfold sh, Subprocess.run, Subprocess.create, outcome, command_fails.
  cbn [Subprocess.verbose Subprocess.cwd Subprocess.command
       Subprocess.ignoreErrorCode falsy truthy negb].
  rewrite !result_bind. cbn [result tell].
  rewrite Bool.andb_true_r.
  destruct (truthy _ && truthy _); [done|].
  by rewrite result_bind.
Qed.

Lemma sh_execs command cwd :
  execs (trace (sh exec process_cwd verbose command cwd))
  = [Exec command (js_or cwd process_cwd)].
Proof.
  unfold sh, Subprocess.run, Subprocess.create.
  cbn [Subprocess.verbose Subprocess.cwd Subprocess.command
       Subprocess.ignoreErrorCode falsy truthy negb].
  rewrite !trace_bind, !execs_app. cbn [result tell trace].
  rewrite Bool.andb_true_r.
  destruct (truthy verbose); destruct (truthy _ && truthy _);
    cbn [trace mret W_ret]; rewrite ?trace_bind; cbn; done.
Qed.

(** One more command after a sequence: it is started when the sequence
    succeeded. *)
Lemma chain_snoc (p : W (promise Subprocess.exec_result)) cwd commands c :
  truthy cwd = true -> commands <> [] ->
  execs (trace p) = map (fun c => Exec c cwd) (attempted exec cwd commands) ->
  result p = chain_outcome exec cwd commands ->
  let q := (p1 ← p;
            and_then p1 (fun _ => sh exec process_cwd verbose c cwd)) in
  execs (trace q) = map (fun c => Exec c cwd) (attempted exec cwd (commands ++ [c]))
  /\ result q = chain_outcome exec cwd (commands ++ [c]).
Proof.
  intros Hcwd Hne Htr Hres q. unfold q.
  rewrite trace_bind, result_bind, execs_app, Htr, Hres.
  unfold chain_outcome. clear Htr Hres q p.
  induction commands as [|c0 cs IH]; [done|].
  cbn [attempted app].
  destruct (command_fails exec c0 cwd) eqn:Hf.
  - cbn [last map]. unfold outcome. rewrite Hf. done.
  - destruct cs as [|c1 cs].
    + cbn [attempted last map app]. unfold outcome at 1 2. rewrite Hf.
      cbn [and_then]. rewrite sh_result, sh_execs. unfold js_or. rewrite Hcwd.
      destruct (command_fails exec c cwd); done.
    + specialize (IH ltac:(done)). destruct IH as [IH1 IH2].
      cbn [map]. cbn [app] in *.
      cbn [attempted app] in *. cbn [last] in *. fold (@last string) in *.
      split; [f_equal; exact IH1 | exact IH2].
Qed.

Lemma chain_one command cwd :
  truthy cwd = true ->
  execs (trace (sh exec process_cwd verbose command cwd))
  = map (fun c => Exec c cwd) (attempted exec cwd [command])
  /\ result (sh exec process_cwd verbose command cwd)
     = chain_outcome exec cwd [command].
Proof.
  intros Hcwd. rewrite sh_result, sh_execs. unfold js_or. rewrite Hcwd.
  unfold chain_outcome. cbn [attempted].
  by destruct (command_fails exec command cwd).
Qed.

Lemma resetToMaster_chain (cwd : jsval) :
  truthy cwd = true ->
  let run := resetToMaster exec process_cwd verbose cwd in
  let commands := ["git fetch --all --prune "; "git checkout master";
                   "git reset --hard origin/master"] in
  execs (trace run) = map (fun c => Exec c cwd) (attempted exec cwd commands)
  /\ result run = chain_outcome exec cwd commands.
Proof.
  intros Hcwd. unfold resetToMaster, falsy. rewrite Hcwd. cbn [negb].
  destruct (chain_one "git fetch --all --prune " cwd Hcwd) as [H1 H2].
  destruct (chain_snoc _ cwd ["git fetch --all --prune "]
                       "git checkout master" Hcwd ltac:(discriminate) H1 H2)
    as [H3 H4].
  destruct (chain_snoc _ cwd ["git fetch --all --prune "; "git checkout master"]
                       "git reset --hard origin/master" Hcwd
                       ltac:(discriminate) H3 H4) as [H5 H6].
  cbn [app] in H5, H6. rewrite W_bind_assoc in H5, H6. done.
Qed.

Lemma createBranch_chain (branchname cwd : jsval) :
  truthy branchname = true -> truthy cwd = true ->
  let run := createBranch exec process_cwd verbose branchname cwd in
  let commands := ["git checkout -b " +:+ to_string branchname;
                   "git push origin " +:+ to_string branchname] in
  execs (trace run) = map (fun c => Exec c cwd) (attempted exec cwd commands)
  /\ result run = chain_outcome exec cwd commands.
Proof.
  intros Hb Hcwd. unfold createBranch, falsy. rewrite Hcwd, Hb. cbn [negb orb].
  destruct (chain_one ("git checkout -b " +:+ to_string branchname) cwd Hcwd)
    as [H1 H2].
  exact (chain_snoc _ cwd ["git checkout -b " +:+ to_string branchname]
                    ("git push origin " +:+ to_string branchname)
                    Hcwd ltac:(discriminate) H1 H2).
Qed.


(** X1.  [resetToMaster] runs [git fetch], [git checkout master] and
    [git reset --hard origin/master] in [cwd], and [createBranch] runs
    [git checkout -b] and [git push origin], each command being started
    only when the one before succeeded: the commands that are run are
    those up to and including the first that fails, and the promise ends
    as the last command that was run did. *)
Theorem git_sequences_stop_at_the_first_failure (branchname cwd : jsval) :
  truthy cwd = true ->
  (let run := resetToMaster exec process_cwd verbose cwd in
   let commands := ["git fetch --all --prune "; "git checkout master";
                    "git reset --hard origin/master"] in
   execs (trace run) = map (fun c => Exec c cwd) (attempted exec cwd commands)
   /\ result run = chain_outcome exec cwd commands)
  /\ (truthy branchname = true ->
      let run := createBranch exec process_cwd verbose branchname cwd in
      let commands := ["git checkout -b " +:+ to_string branchname;
                       "git push origin " +:+ to_string branchname] in
      execs (trace run) = map (fun c => Exec c cwd) (attempted exec cwd commands)
      /\ result run = chain_outcome exec cwd commands).
Proof.
  intros Hcwd. split.
  - by apply resetToMaster_chain.
  - intros Hb. by apply createBranch_chain.
Qed.

Variable fs_exists : string -> bool.





Variable readFile : string -> callback string.
Variable JSON_parse : string -> callback packagedata.
Variable writeFile : string -> packagedata -> callback unit.

Lemma only_console_execs tr :
  Forall (fun e => is_console_log e = true) tr -> execs tr = [].
Proof.
  induction 1 as [|e tr He _ IH]; [done|].
  unfold execs in *. cbn [List.filter]. by destruct e.
Qed.

Lemma only_console_quiet tr :
  Forall (fun e => is_console_log e = true) tr -> quiet tr = [].
Proof.
  induction 1 as [|e tr He _ IH]; [done|].
  unfold quiet in *. cbn [List.filter]. by rewrite He.
Qed.

Lemma rewrite_entry_prints warn_prefix what cwd branchname v c k :
  Forall (fun e => is_console_log e = true)
         (trace (rewrite_entry warn_prefix what cwd branchname v c k)).
Proof.
  unfold rewrite_entry.
  destruct (pobj_get c k) as [value|]; [|by constructor].
  destruct (Regex.exec repoRegex (to_string value)) as [m|]; [|by constructor].
  destruct (truthy (JStr (Regex.group 3 m))).
  - rewrite trace_bind. cbn. by repeat constructor.
  - rewrite trace_bind. destruct (truthy v); cbn; by repeat constructor.
Qed.

Lemma rewrite_fold_prints warn_prefix what cwd branchname v ks c :
  Forall (fun e => is_console_log e = true)
         (trace (foldlM (rewrite_entry warn_prefix what cwd branchname v) c ks)).
Proof.
  revert c. induction ks as [|k ks IH]; intros c; [by constructor|].
  cbn [foldlM]. rewrite trace_bind. apply Forall_app. split.
  - apply rewrite_entry_prints.
  - apply IH.
Qed.

Lemma rewrite_manifest_prints cwd branchname v p :
  Forall (fun e => is_console_log e = true)
         (trace (rewrite_manifest cwd branchname v p)).
Proof.
  unfold rewrite_manifest, rewrite_all.
  rewrite !trace_bind. repeat apply Forall_app_2.
  - destruct (dependencies p); [|by constructor].
    rewrite trace_bind. apply Forall_app_2; [apply rewrite_fold_prints|by constructor].
  - destruct (devDependencies p); [|by constructor].
    rewrite trace_bind. apply Forall_app_2; [apply rewrite_fold_prints|by constructor].
  - by constructor.
Qed.

(** X3.  The steps of [updatePackageToBranch] wait for each other.
    When the manifest cannot be read or parsed nothing is written and no
    command is run; the rewritten manifest is written otherwise, and
    when that fails no command is run; [git commit] and [git push] are
    run after a successful write, the push only after a successful
    commit, and the promise ends as the last of them that was run. *)
Theorem updatePackageToBranch_stops_at_the_first_failure (branchname cwd : jsval) :
  truthy branchname = true -> truthy cwd = true ->
  let filename := to_string cwd +:+ "/package.json" in
  let run := updatePackageToBranch exec process_cwd verbose readFile JSON_parse
                                   writeFile branchname cwd in
  let commands := ["git commit -a -m '" +:+ to_string branchname +:+ "'";
                   "git push origin " +:+ to_string branchname] in
  match readFile filename with
  | CbErr err => run = MkW (Rejected err) [FsRead filename]
  | CbOk data =>
      match JSON_parse data with
      | CbErr err => run = MkW (Rejected err) [FsRead filename]
      | CbOk p =>
          let p' := result (rewrite_manifest cwd branchname verbose p) in
          FsWrite filename p' ∈ trace run
          /\ match writeFile filename p' with
             | CbErr err => result run = Rejected err /\ execs (trace run) = []
             | CbOk _ =>
                 result run = chain_outcome exec cwd commands
                 /\ execs (trace run)
                    = map (fun c => Exec c cwd) (attempted exec cwd commands)
             end
      end
  end.
Proof.
  intros Hb Hcwd filename run commands. subst run.
  unfold updatePackageToBranch, falsy. rewrite Hb, Hcwd. cbn [negb orb].
  fold filename.
  destruct (readFile filename) as [err|data]; [done|].
  cbn [nfcall and_then].
  destruct (JSON_parse data) as [err|p]; [done|].
  rewrite !trace_bind, !result_bind. cbn [trace result tell mret W_ret nfcall and_then].
  rewrite !trace_bind, !result_bind. cbn [trace result tell mret W_ret nfcall and_then].
  set (p' := result (rewrite_manifest cwd branchname verbose p)).
  pose proof (only_console_execs _ (rewrite_manifest_prints cwd branchname verbose p))
    as Hquiet.
  rewrite !execs_app, Hquiet.
  rewrite (trace_bind (tell [FsWrite filename p'])),
          (result_bind (tell [FsWrite filename p'])).
  cbn [trace result tell mret W_ret app].
  split.
  { apply list_elem_of_further, elem_of_app. right. apply list_elem_of_here. }
  destruct (writeFile filename p') as [err|[]]; cbn [nfcall and_then]; [done|].
  rewrite trace_bind, result_bind, execs_app, sh_result, sh_execs.
  cbn [trace result mret W_ret]. unfold js_or. rewrite Hcwd.
  unfold chain_outcome, commands. cbn [attempted]. unfold outcome.
  destruct (command_fails exec _ cwd) eqn:Hcommit;
    cbn [then_value and_then last]; rewrite ?Hcommit; [done|].
  rewrite sh_result, sh_execs. unfold js_or, outcome. rewrite Hcwd.
  destruct (command_fails exec ("git push origin " +:+ to_string branchname) cwd)
    eqn:Hpush; cbn [last]; rewrite Hpush; done.
Qed.

Lemma quiet_app tr1 tr2 : quiet (tr1 ++ tr2) = quiet tr1 ++ quiet tr2.
Proof. apply List.filter_app. Qed.

Lemma same_refl {A} (m : W A) : same_but_console m m.
Proof. done. Qed.

Lemma same_bind {A B} (m m' : W A) (f f' : A -> W B) :
  same_but_console m m' ->
  (forall x, same_but_console (f x) (f' x)) ->
  same_but_console (m ≫= f) (m' ≫= f').
Proof.
  intros [Hr Ht] Hf. unfold same_but_console.
  rewrite !result_bind, !trace_bind, !quiet_app, Hr, Ht.
  destruct (Hf (result m')) as [-> ->]. done.
Qed.

Lemma same_when (v v' : jsval) (es es' : list event) :
  Forall (fun e => is_console_log e = true) es ->
  Forall (fun e => is_console_log e = true) es' ->
  same_but_console (if truthy v then tell es else mret tt)
                   (if truthy v' then tell es' else mret tt).
Proof.
  intros He He'. split.
  - by destruct (truthy v), (truthy v').
  - destruct (truthy v), (truthy v'); cbn [trace tell mret W_ret];
      by rewrite ?(only_console_quiet _ He), ?(only_console_quiet _ He').
Qed.

Lemma same_run (v v' : jsval) c command ignore :
  same_but_console
    (Subprocess.run exec (Subprocess.New c command v ignore))
    (Subprocess.run exec (Subprocess.New c command v' ignore)).
Proof.
  unfold Subprocess.run.
  cbn [Subprocess.verbose Subprocess.cwd Subprocess.command
       Subprocess.ignoreErrorCode].
  apply same_bind; [apply same_when; by repeat constructor|]. intros _.
  apply same_bind; [apply same_refl|]. intros _.
  destruct (_ && _ && _); [apply same_refl|].
  apply same_bind; [apply same_when; by repeat constructor|]. intros _.
  apply same_refl.
Qed.

Lemma same_sh (v v' : jsval) command c :
  same_but_console (sh exec process_cwd v command c)
                   (sh exec process_cwd v' command c).
Proof. apply same_run. Qed.

Lemma same_and_then {A B} (p : promise A) (f f' : A -> W (promise B)) :
  (forall x, same_but_console (f x) (f' x)) ->
  same_but_console (and_then p f) (and_then p f').
Proof. intros Hf. destruct p; [apply same_refl|apply Hf|apply same_refl]. Qed.

Lemma same_foldlM {A B} (f f' : A -> B -> W A) l a :
  (forall a x, same_but_console (f a x) (f' a x)) ->
  same_but_console (foldlM f a l) (foldlM f' a l).
Proof.
  intros Hf. revert a. induction l as [|x l IH]; intros a; [apply same_refl|].
  cbn [foldlM]. apply same_bind; [apply Hf|apply IH].
Qed.

Lemma same_rewrite_entry warn_prefix what cwd branchname (v v' : jsval) c k :
  same_but_console (rewrite_entry warn_prefix what cwd branchname v c k)
                   (rewrite_entry warn_prefix what cwd branchname v' c k).
Proof.
  unfold rewrite_entry.
  destruct (pobj_get c k) as [value|]; [|apply same_refl].
  destruct (Regex.exec repoRegex (to_string value)) as [m|]; [|apply same_refl].
  destruct (truthy (JStr (Regex.group 3 m))); [apply same_refl|].
  apply same_bind; [apply same_when; by repeat constructor|].
  intros _. apply same_refl.
Qed.

Lemma same_rewrite_manifest cwd branchname (v v' : jsval) p :
  same_but_console (rewrite_manifest cwd branchname v p)
                   (rewrite_manifest cwd branchname v' p).
Proof.
  unfold rewrite_manifest, rewrite_all.
  apply same_bind.
  { destruct (dependencies p); [|apply same_refl].
    apply same_bind; [|intros; apply same_refl].
    apply same_foldlM. intros. apply same_rewrite_entry. }
  intros deps. apply same_bind; [|intros; apply same_refl].
  destruct (devDependencies p); [|apply same_refl].
  apply same_bind; [|intros; apply same_refl].
  apply same_foldlM. intros. apply same_rewrite_entry.
Qed.

(** X4.  The [verbose] setting changes nothing but what is printed with
    [console.log]: for every git helper the final state of the promise,
    the child processes, the file accesses and their order are the same
    for any two values of the setting. *)
Theorem verbose_changes_only_what_is_printed
        (verbose' branchname cwd dirname repo : jsval) :
  same_but_console (resetToMaster exec process_cwd verbose cwd)
                   (resetToMaster exec process_cwd verbose' cwd)
  /\ same_but_console (createBranch exec process_cwd verbose branchname cwd)
                      (createBranch exec process_cwd verbose' branchname cwd)
  /\ same_but_console (branchStatus exec process_cwd verbose cwd)
                      (branchStatus exec process_cwd verbose' cwd)
  /\ same_but_console (currentBranch exec process_cwd verbose cwd)
                      (currentBranch exec process_cwd verbose' cwd)
  /\ same_but_console
       (updatePackageToBranch exec process_cwd verbose readFile JSON_parse
                              writeFile branchname cwd)
       (updatePackageToBranch exec process_cwd verbose' readFile JSON_parse
                              writeFile branchname cwd)
  /\ same_but_console
       (cloneOrPull exec process_cwd verbose fs_exists cwd dirname repo)
       (cloneOrPull exec process_cwd verbose' fs_exists cwd dirname repo).
Proof.
  repeat split_and.
  - unfold resetToMaster. destruct (falsy cwd); [apply same_refl|].
    apply same_bind; [apply same_sh|]. intros p1.
    apply same_bind; [apply same_and_then; intros; apply same_sh|]. intros p2.
    apply same_and_then; intros; apply same_sh.
  - unfold createBranch. destruct (_ || _); [apply same_refl|].
    apply same_bind; [apply same_sh|]. intros p1.
    apply same_and_then; intros; apply same_sh.
  - unfold branchStatus. destruct (falsy cwd); [apply same_refl|].
    apply same_bind; [apply same_sh|]. intros; apply same_refl.
  - unfold currentBranch. destruct (falsy cwd); [apply same_refl|].
    apply same_bind; [apply same_sh|]. intros; apply same_refl.
  - unfold updatePackageToBranch. destruct (_ || _); [apply same_refl|].
    apply same_bind; [apply same_refl|]. intros _.
    apply same_bind; [apply same_refl|]. intros p1.
    apply same_bind.
    { apply same_and_then. intros p.
      apply same_bind; [apply same_rewrite_manifest|intros; apply same_refl]. }
    intros p2. apply same_bind; [apply same_refl|]. intros p3.
    apply same_bind.
    { apply same_and_then. intros _.
      apply same_bind; [apply same_sh|intros; apply same_refl]. }
    intros p4. apply same_and_then; intros; apply same_sh.
  - unfold cloneOrPull. destruct (fs_exists _).
    + apply same_bind; [apply same_sh|]. intros p1.
      apply same_bind; [apply same_and_then; intros; apply same_sh|].
      intros; apply same_refl.
    + apply same_bind; [apply same_sh|]. intros; apply same_refl.
Qed.
End Chains.


(** ** The output of the status helpers *)

Section Trim.
Import JS Eff Q GitHelper Notions.

Lemma trim_left_spec s :
  exists pre,
    s = pre ++ trim_left s
    /\ Forall (fun c => is_space c = true) pre
    /\ forall c rest, trim_left s = c :: rest -> is_space c = false.
Proof.
  induction s as [|a s (pre & Hs & Hpre & Hhead)].
  - exists []. by repeat split.
  - cbn [trim_left]. destruct (is_space a) eqn:Ha.
    + exists (a :: pre). split; [by rewrite Hs at 1|]. split; [by constructor|done].
    + exists []. repeat split; [by constructor|]. intros c rest [= <- _]. done.
Qed.

Lemma trim_spec s :
  exists pre post,
    list_ascii_of_string s = pre ++ list_ascii_of_string (trim s) ++ post
    /\ Forall (fun c => is_space c = true) pre
    /\ Forall (fun c => is_space c = true) post
    /\ (forall c rest, list_ascii_of_string (trim s) = c :: rest ->
                       is_space c = false)
    /\ (forall c front, list_ascii_of_string (trim s) = front ++ [c] ->
                        is_space c = false).
Proof.
  unfold trim. rewrite list_ascii_of_string_of_list_ascii.
  destruct (trim_left_spec (list_ascii_of_string s)) as (pre & Hs & Hpre & Hhead).
  set (t := trim_left (list_ascii_of_string s)) in *.
  destruct (trim_left_spec (rev t)) as (post' & Ht & Hpost & Hlast).
  set (u := trim_left (rev t)) in *.
  assert (Ht' : t = rev u ++ rev post').
  { by rewrite <- rev_app_distr, <- Ht, rev_involutive. }
  exists pre, (rev post'). split; [by rewrite <- Ht'|].
  split; [done|]. split.
  { apply Forall_forall. intros c Hc. apply list_elem_of_In, in_rev, list_elem_of_In in Hc.
    by apply (proj1 (Forall_forall _ _) Hpost). }
  split.
  - intros c rest Hu. apply (Hhead c (rest ++ rev post')).
    by rewrite Ht', Hu.
  - intros c front Hu. apply (Hlast c (rev front)).
    rewrite <- (rev_involutive u), Hu, rev_app_distr. done.
Qed.

Variable exec : string -> jsval -> Subprocess.exec_result.
Variable process_cwd : jsval.
Variable verbose : jsval.

(** X5.  [branchStatus] resolves with the output of [git status -s] as
    it is, and [currentBranch] with the output of its pipeline without
    the white space around it: what is removed at both ends is white
    space only, and what is left neither begins nor ends with white
    space.  Both reject with the error of the command when it fails. *)
Theorem status_helpers_resolve_with_the_output (cwd : jsval) :
  truthy cwd = true ->
  let status := "git status -s " in
  let branch := "git branch --no-color | grep '^*' | sed -e 's/^* //'" in
  result (branchStatus exec process_cwd verbose cwd)
  = (if command_fails exec status cwd then Rejected (failure exec status cwd)
     else Fulfilled (Subprocess.stdout (exec status cwd)))
  /\ (command_fails exec branch cwd = true ->
      result (currentBranch exec process_cwd verbose cwd)
      = Rejected (failure exec branch cwd))
  /\ (command_fails exec branch cwd = false ->
      exists name pre post,
        result (currentBranch exec process_cwd verbose cwd) = Fulfilled name
        /\ list_ascii_of_string (Subprocess.stdout (exec branch cwd))
           = pre ++ list_ascii_of_string name ++ post
        /\ Forall (fun c => is_space c = true) pre
        /\ Forall (fun c => is_space c = true) post
        /\ (forall c rest, list_ascii_of_string name = c :: rest ->
                           is_space c = false)
        /\ (forall c front, list_ascii_of_string name = front ++ [c] ->
                            is_space c = false)).
Proof.
  intros Hcwd status branch.
  unfold branchStatus, currentBranch, falsy. rewrite Hcwd. cbn [negb].
  rewrite !result_bind, !sh_result. cbn [result mret W_ret].
  unfold js_or, outcome. rewrite Hcwd. fold status branch.
  split; [by destruct (command_fails exec status cwd)|].
  split; intros ->; cbn [then_value]; [done|].
  destruct (trim_spec (Subprocess.stdout (exec branch cwd)))
    as (pre & post & H1 & H2 & H3 & H4 & H5).
  by exists (trim (Subprocess.stdout (exec branch cwd))), pre, post.
Qed.
End Trim.


(** ** The manifest rewrite: keys and idempotence *)

Section Idempotence.
Import JS Eff Q Regex GitHelper Notions.

(** X6.  The rewrite of the manifest never adds, removes or reorders an
    entry of [dependencies] or [devDependencies], and a mapping that is
    missing stays missing. *)
Theorem manifest_rewrite_keeps_the_keys (cwd branchname verbose : jsval)
        (p : packagedata) (dev : bool) :
  pobj_keys <$> mapping dev (result (rewrite_manifest cwd branchname verbose p))
  = pobj_keys <$> mapping dev p.
Proof.
  unfold rewrite_manifest, rewrite_all, mapping.
  rewrite !result_bind. cbn [result mret W_ret dependencies devDependencies].
  destruct dev.
  - destruct (devDependencies p) as [c|]; [|done].
    rewrite result_bind. cbn [result mret W_ret fmap option_fmap option_map].
    by rewrite rewrite_fold_keys.
  - destruct (dependencies p) as [c|]; [|done].
    rewrite result_bind. cbn [result mret W_ret fmap option_fmap option_map].
    by rewrite rewrite_fold_keys.
Qed.

Lemma list_ascii_of_string_app s1 s2 :
  list_ascii_of_string (s1 +:+ s2)
  = list_ascii_of_string s1 ++ list_ascii_of_string s2.
Proof.
  induction s1 as [|a s1 IH]; [done|].
  change (String a s1 +:+ s2) with (String a (s1 +:+ s2)).
  cbn [list_ascii_of_string app]. by rewrite IH.
Qed.




Section Fold.
Variables (warn_prefix what : string) (cwd branchname verbose : jsval).



End Fold.



End Idempotence.


(** ** Paged fetches: what a resolved fetch implies, and the requests *)

Section QAllInversion.
Import JS Q Notions.
Context {A : Type}.

Lemma all_settle_filled_from (ps : list (promise A)) st i :
  filled_from ps st -> filled_from ps (all_settle ps st i).
Proof.
  intros [Hs Hd]. unfold all_settle.
  destruct (slots st !! i) as [[v0|]|] eqn:Hi; [done| |done].
  destruct (ps !! i) as [[|v|e]|] eqn:Hp; [done| | |done].
  - split.
    + intros j w Hj. simpl in Hj. destruct (decide (j = i)) as [->|Hne].
      * rewrite list_lookup_insert_eq in Hj by (by eapply lookup_lt_Some).
        by injection Hj as <-.
      * rewrite list_lookup_insert_ne in Hj by done. by apply Hs.
    + intros vs Hvs. simpl in Hvs. simpl.
      destruct (deferred st) as [|vs0|e0] eqn:Hdef.
      * destruct (mapM id (<[i:=Some v]> (slots st))) as [values|]; [|done].
        cbn [d_resolve] in Hvs. by injection Hvs as <-.
      * specialize (Hd vs0 eq_refl). by rewrite (mapM_id_None _ i Hi) in Hd.
      * by destruct (mapM id (<[i:=Some v]> (slots st))).
  - split; [done|].
    intros vs Hvs. simpl in *. apply Hd. by destruct (deferred st).
Qed.

Lemma all_fold_filled_from (ps : list (promise A)) sched st :
  filled_from ps st -> filled_from ps (foldl (all_settle ps) st sched).
Proof.
  revert st. induction sched as [|i sched IH]; intros st Hst; [done|].
  cbn [foldl]. by apply IH, all_settle_filled_from.
Qed.

Lemma all_fulfilled_inv sched (ps : list (promise A)) vs :
  Q.all sched ps = Fulfilled vs -> ps = Fulfilled <$> vs.
Proof.
  unfold Q.all. destruct ps as [|p ps']; [by intros [= <-]|].
  set (ps := p :: ps'). intros Hall.
  assert (Hinit : filled_from ps (AllState (replicate (length ps) None) Pending)).
  { split; [|done]. cbn [slots]. intros j v Hj.
    apply lookup_replicate in Hj as [Hj _]. done. }
  pose proof (all_fold_filled_from ps sched _ Hinit) as [Hs Hd].
  specialize (Hd vs Hall). apply mapM_Some in Hd.
  pose proof (all_fold_length ps sched (AllState (replicate (length ps) None) Pending))
    as Hlen.
  cbn [slots] in Hlen. rewrite length_replicate in Hlen.
  apply list_eq. intros j. rewrite list_lookup_fmap.
  destruct (vs !! j) as [v|] eqn:Hv.
  - destruct (Forall2_lookup_r _ _ _ _ _ Hd Hv) as (s & Hsj & Heq).
    cbn in Heq. subst s. cbn. by apply Hs.
  - cbn. apply lookup_ge_None. apply lookup_ge_None in Hv.
    rewrite <- Hlen, (Forall2_length _ _ _ Hd). done.
Qed.
End QAllInversion.

Section PagedInversion.
Import JS Eff Q GithubClient Notions.

Lemma all_pages_inv (fetch : jsval -> jsval -> W (promise response))
      sched first d l :
  (forall l0, d <> Fulfilled l0) ->
  result (all_pages fetch sched first d) = Fulfilled l ->
  exists data pages,
    first = Fulfilled data
    /\ d = Pending
    /\ Forall2 (fun i p => result (fetch (further_per_page data) (JNum i))
                           = Fulfilled p)
               (further_pages data) pages
    /\ l = with_id data ++ concat (map with_id pages).
Proof.
  intros Hd Hres. unfold all_pages in Hres.
  destruct first as [|data|e]; cbn [result mret W_ret] in Hres.
  - by apply Hd in Hres.
  - destruct (last_link data) as [parsedQuery|] eqn:Hlink.
    + rewrite result_bind, result_mapM in Hres.
      destruct (Q.all sched _) as [|allResults|e] eqn:Hall;
        cbn [result mret W_ret] in Hres.
      * by apply Hd in Hres.
      * apply all_fulfilled_inv in Hall.
        destruct d; cbn in Hres; [|by apply Hd in Hres|done].
        injection Hres as <-. exists data, allResults.
        unfold further_pages, further_per_page. rewrite Hlink.
        split; [done|]. split; [done|]. split; [|done].
        clear -Hall. revert allResults Hall.
        induction (page_numbers parsedQuery) as [|i nums IH];
          intros [|p ps] Hall; try done.
        injection Hall as Hi Hall. constructor; [done|by apply IH].
      * destruct d; cbn in Hres; [done|by apply Hd in Hres|done].
    + cbn [result mret W_ret] in Hres.
      destruct d; cbn in Hres; [|by apply Hd in Hres|done].
      injection Hres as <-. exists data, [].
      unfold further_pages, further_per_page. rewrite Hlink.
      split; [done|]. split; [done|]. split; [constructor|].
      cbn. by rewrite app_nil_r.
  - destruct d; cbn in Hres; [done|by apply Hd in Hres|done].
Qed.

Lemma settle_fulfilled_inv {A} (c : callback A) v :
  GithubClient.settle c Pending = Fulfilled v -> c = CbOk v.
Proof. destruct c; cbn; congruence. Qed.

Lemma Forall2_answered {R} (req : Z -> R) (g : R -> callback response)
      (f : Z -> promise response) nums pages :
  (forall i, f i = GithubClient.settle (g (req i)) Pending) ->
  Forall2 (fun i p => f i = Fulfilled p) nums pages ->
  Forall2 (fun i p => g (req i) = CbOk p) nums pages.
Proof.
  intros Hf. induction 1 as [|i p nums ps Hi _ IH]; constructor; [|done].
  rewrite Hf in Hi. by apply settle_fulfilled_inv.
Qed.

Variable github_list : request -> callback response.

(** X8.  Whatever the order in which the page requests complete, and
    even if some never do: when [allRepos], [allIssues] or
    [getAllUserEvents] resolves, page 1 and every further page it
    announced were answered, and the value is the concatenation of their
    entries that carry an [id], in page order.  [allIssues] resolves only
    for a truthy user and repository. *)
Theorem paged_fetch_resolves_only_with_every_page (sched : list nat) :
  (forall org l,
      result (allRepos github_list sched org) = Fulfilled l ->
      exists first pages,
        github_list (repos_options org JUndefined JUndefined) = CbOk first
        /\ Forall2 (fun i p =>
                      github_list (repos_options org (further_per_page first)
                                                 (JNum i)) = CbOk p)
                   (further_pages first) pages
        /\ l = with_id first ++ concat (map with_id pages))
  /\ (forall user repo labels milestone assignee l,
      result (allIssues github_list sched user repo labels milestone assignee)
      = Fulfilled l ->
      truthy user = true /\ truthy repo = true
      /\ exists first pages,
          github_list (issues_options user repo JNull JNull
                                      labels milestone assignee) = CbOk first
          /\ Forall2 (fun i p =>
                        github_list (issues_options user repo
                                       (further_per_page first) (JNum i)
                                       labels milestone assignee) = CbOk p)
                     (further_pages first) pages
          /\ l = with_id first ++ concat (map with_id pages))
  /\ (forall user l,
      result (getAllUserEvents github_list sched user) = Fulfilled l ->
      exists first pages,
        github_list (events_options user JNull) = CbOk first
        /\ Forall2 (fun i p => github_list (events_options user (JNum i)) = CbOk p)
                   (further_pages first) pages
        /\ l = with_id first ++ concat (map with_id pages)).
Proof.
  repeat split_and.
  - intros org l Hres.
    rewrite allRepos_all_pages, result_bind, result_repos in Hres.
    apply all_pages_inv in Hres as (first & pages & H1 & _ & Hp & ->); [|done].
    apply settle_fulfilled_inv in H1. exists first, pages.
    split; [done|]. split; [|done].
    eapply Forall2_answered; [|exact Hp]. intros i. apply result_repos.
  - intros user repo labels milestone assignee l Hres.
    rewrite allIssues_all_pages, result_bind in Hres.
    apply all_pages_inv in Hres as (first & pages & H1 & Hg & Hp & ->).
    2:{ intros l0. unfold guarded. by destruct (falsy user), (falsy repo). }
    assert (Hu : truthy user = true /\ truthy repo = true).
    { unfold guarded, falsy in Hg.
      by destruct (truthy user), (truthy repo). }
    destruct Hu as [Hu Hr]. split; [done|]. split; [done|].
    rewrite result_issues in H1 by done.
    apply settle_fulfilled_inv in H1. exists first, pages.
    split; [done|]. split; [|done].
    eapply Forall2_answered; [|exact Hp]. intros i. by apply result_issues.
  - intros user l Hres.
    rewrite getAllUserEvents_all_pages, result_bind, result_getUserEvents in Hres.
    apply all_pages_inv in Hres as (first & pages & H1 & _ & Hp & ->); [|done].
    apply settle_fulfilled_inv in H1. exists first, pages.
    split; [done|]. split; [|done].
    eapply (Forall2_answered (fun i => events_options user (JNum i)));
      [|exact Hp].
    intros i. apply result_getUserEvents.
Qed.
End PagedInversion.

Section PagedRequests.
Import JS Eff Q GithubClient Notions.
Variable github_list : request -> callback response.

Lemma trace_repos org perPage page :
  trace (repos github_list org perPage page)
  = [ApiCall (repos_options org perPage page)].
Proof. done. Qed.

Lemma trace_issues user repo perPage page labels milestone assignee :
  trace (issues github_list user repo perPage page labels milestone assignee)
  = [ApiCall (issues_options user repo perPage page labels milestone assignee)].
Proof. done. Qed.

Lemma trace_getUserEvents user page :
  trace (getUserEvents github_list user page)
  = [ApiCall (events_options user page)].
Proof. done. Qed.

Lemma concat_singletons {A B} (f : A -> B) (l : list A) :
  concat (map (fun x => [f x]) l) = map f l.
Proof. induction l as [|x l IH]; [done|]. cbn. by rewrite IH. Qed.

(** X9.  The requests of a paged fetch: one for page 1 with the default
    page size, then one for each of the pages 2..k in ascending order,
    with the page size of the [last] link ([getAllUserEvents] passes the
    page number only); all of them are sent whether or not some fail.
    [allIssues] sends its first request even when a missing user or
    repository has already rejected the promise, and no other then. *)
Theorem paged_fetch_requests_each_page_once (sched : list nat) :
  (forall org first,
      github_list (repos_options org JUndefined JUndefined) = CbOk first ->
      trace (allRepos github_list sched org)
      = ApiCall (repos_options org JUndefined JUndefined)
        :: map (fun i => ApiCall (repos_options org (further_per_page first)
                                                (JNum i)))
               (further_pages first))
  /\ (forall user repo labels milestone assignee first,
      truthy user = true -> truthy repo = true ->
      github_list (issues_options user repo JNull JNull labels milestone assignee)
      = CbOk first ->
      trace (allIssues github_list sched user repo labels milestone assignee)
      = ApiCall (issues_options user repo JNull JNull labels milestone assignee)
        :: map (fun i => ApiCall (issues_options user repo (further_per_page first)
                                                 (JNum i) labels milestone assignee))
               (further_pages first))
  /\ (forall user repo labels milestone assignee,
      falsy user = true \/ falsy repo = true ->
      trace (allIssues github_list sched user repo labels milestone assignee)
      = [ApiCall (issues_options user repo JNull JNull labels milestone assignee)])
  /\ (forall user first,
      github_list (events_options user JNull) = CbOk first ->
      trace (getAllUserEvents github_list sched user)
      = ApiCall (events_options user JNull)
        :: map (fun i => ApiCall (events_options user (JNum i)))
               (further_pages first)).
Proof.
  repeat split_and.
  - intros org first H1.
    rewrite allRepos_all_pages, trace_bind, result_repos, H1. cbn [settle d_resolve].
    rewrite all_pages_trace, trace_repos. cbn [app]. f_equal.
    apply (concat_singletons
             (fun i => ApiCall (repos_options org (further_per_page first) (JNum i)))).
  - intros user repo labels milestone assignee first Hu Hr H1.
    rewrite allIssues_all_pages, trace_bind, result_issues, H1 by done.
    cbn [settle d_resolve].
    rewrite all_pages_trace, trace_issues. cbn [app]. f_equal.
    apply (concat_singletons
             (fun i => ApiCall (issues_options user repo (further_per_page first)
                                               (JNum i) labels milestone assignee))).
  - intros user repo labels milestone assignee Hf.
    rewrite allIssues_all_pages, trace_bind, result_issues_guarded, trace_issues.
    assert (Hg : exists e, @guarded response user repo = Rejected e).
    { unfold guarded.
      destruct Hf as [-> | ->]; [destruct (falsy repo)|destruct (falsy user)];
        cbn; eauto. }
    destruct Hg as [e ->].
    by destruct (github_list _).
  - intros user first H1.
    rewrite getAllUserEvents_all_pages, trace_bind, result_getUserEvents, H1.
    cbn [settle d_resolve].
    rewrite all_pages_trace, trace_getUserEvents. cbn [app]. f_equal.
    apply (concat_singletons (fun i => ApiCall (events_options user (JNum i)))).
Qed.

Lemma all_pages_single (fetch : jsval -> jsval -> W (promise response))
      sched first d :
  further_pages first = [] ->
  all_pages fetch sched (Fulfilled first) d = MkW (d_resolve (with_id first) d) [].
Proof.
  unfold all_pages, further_pages. intros Hp.
  destruct (last_link first) as [parsedQuery|]; [|done].
  rewrite Hp. cbn. by rewrite app_nil_r.
Qed.

(** X10.  Without a [last] link, or with one whose page is not a number
    or is at most 1, a paged fetch sends the request for page 1 only and
    resolves with the entries of that page that carry an [id]. *)
Theorem paged_fetch_stops_at_page_one (sched : list nat) (first : response) :
  (last_link first = None
   \/ exists parsedQuery,
       last_link first = Some parsedQuery
       /\ (query_page parsedQuery = None
           \/ exists k, query_page parsedQuery = Some k /\ (k <= 1)%Z)) ->
  (forall org,
      github_list (repos_options org JUndefined JUndefined) = CbOk first ->
      allRepos github_list sched org
      = MkW (Fulfilled (with_id first))
            [ApiCall (repos_options org JUndefined JUndefined)])
  /\ (forall user repo labels milestone assignee,
      truthy user = true -> truthy repo = true ->
      github_list (issues_options user repo JNull JNull labels milestone assignee)
      = CbOk first ->
      allIssues github_list sched user repo labels milestone assignee
      = MkW (Fulfilled (with_id first))
            [ApiCall (issues_options user repo JNull JNull
                                     labels milestone assignee)])
  /\ (forall user,
      github_list (events_options user JNull) = CbOk first ->
      getAllUserEvents github_list sched user
      = MkW (Fulfilled (with_id first)) [ApiCall (events_options user JNull)]).
Proof.
  intros Hlast.
  assert (Hp : further_pages first = []).
  { unfold further_pages, page_numbers.
    destruct Hlast as [-> | (parsedQuery & -> & [-> | (k & -> & Hk)])]; [done..|].
    unfold seqZ. by replace (Z.to_nat (k - 1)) with 0 by lia. }
  repeat split_and.
  - intros org H1. rewrite allRepos_all_pages.
    unfold mbind, W_bind. rewrite result_repos, H1. cbn [settle d_resolve].
    by rewrite all_pages_single.
  - intros user repo labels milestone assignee Hu Hr H1.
    rewrite allIssues_all_pages, guarded_truthy by done.
    unfold mbind, W_bind. rewrite result_issues, H1 by done. cbn [settle d_resolve].
    by rewrite all_pages_single.
  - intros user H1. rewrite getAllUserEvents_all_pages.
    unfold mbind, W_bind. rewrite result_getUserEvents, H1. cbn [settle d_resolve].
    by rewrite all_pages_single.
Qed.
End PagedRequests.


(** ** Operations over all repositories *)

Section FanOutRequests.
Import JS Eff Q GithubClient Notions.
Variable github_list : request -> callback response.
Variable github_do : request -> callback jsval.

Lemma api_calls_app tr1 tr2 : api_calls (tr1 ++ tr2) = api_calls tr1 ++ api_calls tr2.
Proof. unfold api_calls. apply omap_app. Qed.

Lemma api_calls_concat (trs : list (list event)) :
  api_calls (concat trs) = concat (map api_calls trs).
Proof.
  induction trs as [|tr trs IH]; [done|].
  cbn [concat map]. by rewrite api_calls_app, IH.
Qed.

Lemma fan_out_api_calls op (log_repos log_results : bool) sched org repoList
      (call : object -> request) :
  result (allRepos github_list sched org) = Fulfilled repoList ->
  (forall r, api_calls (trace (op r)) = [call r]) ->
  api_calls (trace (fan_out github_list op log_repos log_results sched org))
  = api_calls (trace (allRepos github_list sched org)) ++ map call repoList.
Proof.
  intros Hrepos Hop. unfold fan_out.
  destruct (allRepos github_list sched org) as [rp tr].
  cbn [result] in Hrepos. subst rp.
  rewrite trace_bind, api_calls_app. cbn [result trace]. f_equal.
  rewrite trace_bind, api_calls_app.
  replace (api_calls (trace (if log_repos then tell [ConsoleLogRepos repoList]
                             else mret tt))) with (@nil request)
    by (by destruct log_repos).
  cbn [app]. rewrite trace_bind, api_calls_app, trace_mapM, api_calls_concat, map_map.
  replace (api_calls (trace _)) with (@nil request).
  - rewrite app_nil_r. induction repoList as [|r l IH]; [done|].
    cbn [map concat]. by rewrite Hop, IH.
  - destruct (allSettled _); [done| |done].
    rewrite trace_bind. by destruct log_results.
Qed.

(** X11.  After the listing of the repositories, [createLabels],
    [deleteLabels] and [createMilestones] send exactly one request per
    repository, in the order of the listing, for the repository's
    [name]; labels are created with the colour [ffffff]. *)
Theorem fan_outs_send_one_request_per_repository
        (sched : list nat) (org label milestone : jsval) (repoList : list object) :
  result (allRepos github_list sched org) = Fulfilled repoList ->
  let listing := api_calls (trace (allRepos github_list sched org)) in
  api_calls (trace (createLabels github_list github_do sched org label))
  = listing ++ map (fun repo => IssuesCreateLabel org (get repo "name") label
                                                   (JStr "ffffff")) repoList
  /\ api_calls (trace (deleteLabels github_list github_do sched org label))
     = listing ++ map (fun repo => IssuesDeleteLabel org (get repo "name") label)
                      repoList
  /\ api_calls (trace (createMilestones github_list github_do sched org milestone))
     = listing ++ map (fun repo => IssuesCreateMilestone org (get repo "name")
                                                         milestone) repoList.
Proof.
  intros Hrepos listing. repeat split_and.
  - rewrite createLabels_fan_out. apply fan_out_api_calls; [done|].
    intros r. unfold createLabelInRepo. rewrite trace_bind. cbn [js_or truthy].
    by destruct (github_do _).
  - rewrite deleteLabels_fan_out. apply fan_out_api_calls; [done|].
    intros r. unfold deleteLabelInRepo. rewrite trace_bind.
    by destruct (github_do _).
  - rewrite createMilestones_fan_out. apply fan_out_api_calls; [done|].
    intros r. unfold createMilestoneInRepo. rewrite trace_bind.
    by destruct (github_do _).
Qed.
End FanOutRequests.

Section LastOutcome.
Import JS Eff Q GithubClient Notions.
Variable github_list : request -> callback response.
Variable github_do : request -> callback jsval.

Lemma fan_out_last op (log_repos log_results : bool) sched org repoList :
  result (allRepos github_list sched org) = Fulfilled repoList ->
  (forall r, result (op r) <> Pending) ->
  result (fan_out github_list op log_repos log_results sched org)
  = Fulfilled match last repoList with
              | Some r =>
                  match inspect (result (op r)) with
                  | Some s => [("[object Object]", s)]
                  | None => []
                  end
              | None => []
              end.
Proof.
  intros Hrepos Hsettled.
  destruct (fan_out_result github_list op log_repos log_results sched org repoList
                           Hrepos) as (snaps & Hsn & ->).
  { apply Forall_forall. intros r _. apply Hsettled. }
  rewrite zipObject_objects by (by eapply Forall2_length).
  f_equal. clear Hrepos.
  induction Hsn as [|r s rs ss Hr Hrs IH]; [done|].
  destruct Hrs as [|r' s' rs ss Hr' Hrs].
  - cbn [last]. by rewrite Hr.
  - rewrite !last_cons_cons. exact IH.
Qed.

Lemma deleteLabelInRepo_settled user repoName label :
  result (deleteLabelInRepo github_do user repoName label) <> Pending.
Proof.
  unfold deleteLabelInRepo. rewrite result_bind.
  destruct (github_do _); rewrite result_bind; done.
Qed.

Lemma createMilestoneInRepo_settled user repo milestone :
  result (createMilestoneInRepo github_do user repo milestone) <> Pending.
Proof.
  unfold createMilestoneInRepo. rewrite result_bind.
  destruct (github_do _); rewrite result_bind; done.
Qed.

(** X21.  [createLabels], [deleteLabels] and [createMilestones] always
    resolve once the repositories are listed, and the mapping they
    resolve with keeps one outcome only: its single key is
    [[object Object]] and its value the outcome for the last repository
    of the listing (the mapping is empty when there is no
    repository). *)
Theorem mutating_fan_outs_keep_only_the_last_outcome
        (sched : list nat) (org label milestone : jsval) (repoList : list object) :
  result (allRepos github_list sched org) = Fulfilled repoList ->
  let kept (op : object -> W (promise jsval)) : pobj (snapshot jsval) :=
    match last repoList with
    | Some r =>
        match inspect (result (op r)) with
        | Some s => [("[object Object]", s)]
        | None => []
        end
    | None => []
    end in
  result (createLabels github_list github_do sched org label)
  = Fulfilled (kept (fun repo => createLabelInRepo github_do org (get repo "name")
                                                   label JUndefined))
  /\ result (deleteLabels github_list github_do sched org label)
     = Fulfilled (kept (fun repo => deleteLabelInRepo github_do org
                                                      (get repo "name") label))
  /\ result (createMilestones github_list github_do sched org milestone)
     = Fulfilled (kept (fun repo => createMilestoneInRepo github_do org
                                                          (get repo "name")
                                                          milestone)).
Proof.
  intros Hrepos kept. subst kept. repeat split_and.
  - rewrite createLabels_fan_out. apply fan_out_last; [done|].
    intros r. apply createLabelInRepo_settled.
  - rewrite deleteLabels_fan_out. apply fan_out_last; [done|].
    intros r. apply deleteLabelInRepo_settled.
  - rewrite createMilestones_fan_out. apply fan_out_last; [done|].
    intros r. apply createMilestoneInRepo_settled.
Qed.
End LastOutcome.

Section ListingFails.
Import JS Eff Q GithubClient Notions.
Variable github_list : request -> callback response.
Variable github_do : request -> callback jsval.

(** X12.  None of the operations over all repositories handles a
    failure of the listing of the repositories: when [allRepos] does
    not resolve, the promise they return is never settled, no further
    request is sent and nothing is printed. *)
Theorem fan_outs_stay_pending_when_the_listing_fails
        (sched sched_labels sched_all : list nat) (sched_issues : nat -> list nat)
        (org label milestone : jsval) :
  (forall repoList, result (allRepos github_list sched org) <> Fulfilled repoList) ->
  let listing := trace (allRepos github_list sched org) in
  listMilestones github_list sched org = MkW Pending listing
  /\ listLabels github_list sched sched_labels org = MkW Pending listing
  /\ createLabels github_list github_do sched org label = MkW Pending listing
  /\ deleteLabels github_list github_do sched org label = MkW Pending listing
  /\ createMilestones github_list github_do sched org milestone
     = MkW Pending listing
  /\ deleteMilestones github_list github_do sched org milestone
     = MkW Pending listing
  /\ loadAllIssues github_list sched sched_issues sched_all org
     = MkW Pending listing.
Proof.
  intros Hrepos listing. subst listing.
  unfold listMilestones, listLabels, createLabels, deleteLabels, createMilestones,
    deleteMilestones, loadAllIssues.
  destruct (allRepos github_list sched org) as [[|repoList|err] tr];
    [|by destruct (Hrepos repoList)|];
    unfold mbind, W_bind; cbn [result trace mret W_ret]; rewrite app_nil_r; done.
Qed.
End ListingFails.

Section LoadAllIssues.
Import JS Eff Q GithubClient Notions.
Variable github_list : request -> callback response.

(** X13.  [loadAllIssues] resolves with the issues of all repositories,
    repository by repository in the order of the listing, when the
    issues of each one can be fetched, whatever the order in which the
    fetches complete.  When the fetch for one repository is rejected the
    promise is never settled and the error is rethrown. *)
Theorem loadAllIssues_joins_the_repositories
        (sched sched_all : list nat) (sched_issues : nat -> list nat)
        (org : jsval) (repoList : list object) :
  result (allRepos github_list sched org) = Fulfilled repoList ->
  let fetch (ir : nat * object) :=
    result (allIssues github_list (sched_issues ir.1) org (get ir.2 "name")
                      JUndefined JUndefined JUndefined) in
  let numbered := zip (seq 0 (length repoList)) repoList in
  (forall lists,
      Forall2 (fun ir l => fetch ir = Fulfilled l) numbered lists ->
      sched_all ≡ₚ seq 0 (length repoList) ->
      result (loadAllIssues github_list sched sched_issues sched_all org)
      = Fulfilled (concat lists))
  /\ (forall j ir err,
      numbered !! j = Some ir -> fetch ir = Rejected err -> j ∈ sched_all ->
      result (loadAllIssues github_list sched sched_issues sched_all org) = Pending
      /\ exists err',
          Uncaught err'
          ∈ trace (loadAllIssues github_list sched sched_issues sched_all org)).
Proof.
  intros Hrepos fetch numbered. unfold loadAllIssues.
  destruct (allRepos github_list sched org) as [rp tr].
  cbn [result] in Hrepos. subst rp. fold numbered.
  split.
  - intros lists Hl Hs.
    rewrite result_bind. cbn [result]. rewrite result_bind, result_mapM.
    assert (Hps : map (fun ir : nat * object =>
                         result (allIssues github_list (sched_issues ir.1) org
                                           (get ir.2 "name")
                                           JUndefined JUndefined JUndefined))
                      numbered = Fulfilled <$> lists).
    { clear Hs. induction Hl as [|ir l irs ls Hir _ IH]; [done|].
      cbn [map fmap list_fmap]. f_equal; [exact Hir|exact IH]. }
    unfold numbered in Hps. rewrite Hps, all_fulfilled; [done|].
    apply covers_of_perm. rewrite <- (Forall2_length _ _ _ Hl).
    unfold numbered. rewrite length_zip, length_seq, Nat.min_id. done.
  - intros j ir err Hj Hir Hin.
    rewrite result_bind, trace_bind. cbn [result trace].
    rewrite result_bind, trace_bind, result_mapM.
    destruct (all_rejected sched_all
                (map (fun ir : nat * object =>
                        result (allIssues github_list (sched_issues ir.1) org
                                          (get ir.2 "name")
                                          JUndefined JUndefined JUndefined))
                     (zip (seq 0 (length repoList)) repoList)) j err)
      as (e' & j' & -> & _); [|done|].
    { unfold numbered in Hj. rewrite list_lookup_fmap, Hj. cbn. by f_equal. }
    split; [done|]. exists e'.
    rewrite trace_bind. cbn [trace tell].
    rewrite !elem_of_app. right. right. left. apply list_elem_of_here.
Qed.
End LoadAllIssues.

Section DeleteFound.
Import JS Eff Q GithubClient Notions.
Variable github_list : request -> callback response.
Variable github_do : request -> callback jsval.




End DeleteFound.


(** ** The enumeration order of a grouping *)

Section Enumeration.
Import JS Eff GithubClient Notions.





Variable field : string.




End Enumeration.


(** ** The command line tool *)

Section ShortForm.
Import JS Eff Pmtool Notions.

Lemma split_whole sep l : sep ∉ l -> split sep l = [l].
Proof.
  induction l as [|c l IH]; intros Hl; [done|].
  cbn [split]. apply not_elem_of_cons in Hl as [Hc Hl].
  destruct (Ascii.eqb_spec c sep) as [->|_]; [done|].
  by rewrite IH.
Qed.

Lemma split_app sep l1 l2 :
  sep ∉ l1 -> split sep (l1 ++ sep :: l2) = l1 :: split sep l2.
Proof.
  induction l1 as [|c l1 IH]; intros Hl.
  - cbn [app split]. by rewrite Ascii.eqb_refl.
  - cbn [app split]. apply not_elem_of_cons in Hl as [Hc Hl].
    destruct (Ascii.eqb_spec c sep) as [->|_]; [done|].
    by rewrite IH.
Qed.

Lemma split_sep sep l : split sep (sep :: l) = [] :: split sep l.
Proof. cbn [split]. by rewrite Ascii.eqb_refl. Qed.

(** X19.  [issueShortForm] turns the address
    [https://github.com/<owner>/<repo>/issues/<number>] into
    [<repo>#<number>]; for a text without [/] both parts are missing and
    the result is [undefined#undefined]. *)
Theorem issueShortForm_names_repository_and_number (owner repo number url : string) :
  ("/"%char ∉ list_ascii_of_string owner ->
   "/"%char ∉ list_ascii_of_string repo ->
   "/"%char ∉ list_ascii_of_string number ->
   issueShortForm ("https://github.com/" +:+ owner +:+ "/" +:+ repo
                   +:+ "/issues/" +:+ number)
   = repo +:+ "#" +:+ number)
  /\ ("/"%char ∉ list_ascii_of_string url ->
      issueShortForm url = "undefined#undefined").
Proof.
  split.
  - intros Ho Hr Hn. unfold issueShortForm.
    rewrite !list_ascii_of_string_app.
    change (list_ascii_of_string "https://github.com/")
      with (list_ascii_of_string "https:" ++ "/"%char
            :: [] ++ "/"%char :: list_ascii_of_string "github.com" ++ ["/"%char]).
    change (list_ascii_of_string "/issues/")
      with ("/"%char :: list_ascii_of_string "issues" ++ ["/"%char]).
    change (list_ascii_of_string "/") with ["/"%char].
    repeat first [rewrite <- app_assoc | progress cbn [app]].
    rewrite (split_app "/" (list_ascii_of_string "https:")) by (apply (bool_decide_unpack _); vm_compute; exact I).
    rewrite split_sep.
    rewrite (split_app "/" (list_ascii_of_string "github.com"))
      by (apply (bool_decide_unpack _); vm_compute; exact I).
    rewrite (split_app "/" (list_ascii_of_string owner)) by done.
    rewrite (split_app "/" (list_ascii_of_string repo)) by done.
    rewrite (split_app "/" (list_ascii_of_string "issues")) by (apply (bool_decide_unpack _); vm_compute; exact I).
    rewrite split_whole by done.
    unfold part. cbn [lookup list_lookup to_string].
    by rewrite !string_of_list_ascii_of_string.
  - intros Hu. unfold issueShortForm. by rewrite split_whole.
Qed.
End ShortForm.

Section Workspace.
Import JS Eff Q GitHelper Pmtool Notions.
Variable exec : string -> jsval -> Subprocess.exec_result.
Variable process_cwd : jsval.
Variable fs_exists : string -> bool.
Variable readFile : string -> callback string.
Variable JSON_parse : string -> callback (pobj string).
Variable cwd : string.
Variables verbose debug : jsval.
Variable stack : jsval -> jsval.




End Workspace.

(** ** The theorems at concrete inputs *)

Section Witnesses.
Import JS Eff Q Regex GitHelper GithubClient Notions Examples.


Lemma paged_fetch_concatenates_pages_witness :
  result (allRepos three_pages [1; 0] (JStr "acme"))
  = Fulfilled [repo 1 "a"; repo 2 "b"; repo 3 "c"; repo 4 "d"]
  /\ result (allIssues three_pages [1; 0] (JStr "acme") (JStr "a")
                       JUndefined JUndefined JUndefined)
     = Fulfilled [repo 1 "a"; repo 2 "b"; repo 3 "c"; repo 4 "d"]
  /\ result (getAllUserEvents three_pages [1; 0] (JStr "someone"))
     = Fulfilled [repo 1 "a"; repo 2 "b"; repo 3 "c"; repo 4 "d"].
Proof.
  destruct (paged_fetch_concatenates_pages three_pages [1; 0])
    as (Hrepos & Hissues & Hevents & _).
  split; [|split].
  - apply (Hrepos (JStr "acme") page1 [page2; page3]);
      [reflexivity|repeat constructor|apply perm_swap].
  - apply (Hissues (JStr "acme") (JStr "a") JUndefined JUndefined JUndefined
                   page1 [page2; page3]);
      [reflexivity|reflexivity|reflexivity|repeat constructor|apply perm_swap].
  - apply (Hevents (JStr "someone") page1 [page2; page3]);
      [reflexivity|repeat constructor|apply perm_swap].
Defined.

Lemma paged_fetch_rejects_on_page_failure_witness :
  allRepos nothing_answers [] (JStr "acme")
  = MkW (Rejected not_found)
        [ApiCall (ReposGetFromOrg (JStr "acme") (JNum 100) (JNum 1))]
  /\ exists i' err',
      i' ∈ further_pages page1
      /\ page3_fails (repos_options (JStr "acme") (further_per_page page1)
                                    (JNum i')) = CbErr err'
      /\ result (allRepos page3_fails [1; 0] (JStr "acme")) = Rejected err'.
Proof.
  split.
  - apply (proj1 (paged_fetch_rejects_on_page_failure nothing_answers [])).
    reflexivity.
  - destruct (paged_fetch_rejects_on_page_failure page3_fails [1; 0])
      as (_ & Hfurther & _).
    apply (Hfurther (JStr "acme") page1 3%Z not_found);
      [reflexivity| |reflexivity|apply perm_swap].
    apply elem_of_cons. right. apply elem_of_cons. by left.
Defined.


Lemma delete_milestone_by_title_witness :
  result (deleteMilestoneInRepo two_repos deletion_succeeds
                                (JStr "acme") (JStr "a") (JStr "2.0"))
  = Rejected (JStr "No milestone named 2.0 found in acme/a")
  /\ ApiCall (IssuesDeleteMilestone (JStr "acme") (JStr "a") (JNum 7))
     ∈ trace (deleteMilestoneInRepo two_repos deletion_succeeds
                                    (JStr "acme") (JStr "a") (JStr "1.0")).
Proof.
  split.
  - apply (proj1 (delete_milestone_by_title
                    two_repos deletion_succeeds (JStr "acme") (JStr "a")
                    (JStr "2.0") (Response [milestone 7 "1.0"] None) eq_refl)).
    repeat constructor.
  - apply (proj1 (proj2 (delete_milestone_by_title
                    two_repos deletion_succeeds (JStr "acme") (JStr "a")
                    (JStr "1.0") (Response [milestone 7 "1.0"] None) eq_refl))
                 (milestone 7 "1.0")).
    + by left.
    + reflexivity.
Defined.


Lemma issue_fetch_rejects_missing_user_or_repo_witness :
  (result (issues three_pages JUndefined (JStr "a") JUndefined JUndefined
                  JUndefined JUndefined JUndefined)
   = Rejected (JStr "No user specified")
   /\ result (allIssues three_pages [1; 0] JUndefined (JStr "a")
                        JUndefined JUndefined JUndefined)
      = Rejected (JStr "No user specified"))
  /\ (result (issues three_pages (JStr "acme") (JStr "") JUndefined JUndefined
                     JUndefined JUndefined JUndefined)
      = Rejected (JStr "No repo specified")
      /\ result (allIssues three_pages [1; 0] (JStr "acme") (JStr "")
                           JUndefined JUndefined JUndefined)
         = Rejected (JStr "No repo specified")).
Proof.
  split.
  - apply issue_fetch_rejects_missing_user_or_repo. left. split; reflexivity.
  - apply issue_fetch_rejects_missing_user_or_repo. right.
    repeat split; reflexivity.
Defined.

Lemma git_helpers_reject_invalid_arguments_witness :
  resetToMaster exec_ok JUndefined (JBool false) (JStr "")
  = MkW (Rejected (JStr "Invalid cwd: ")) []
  /\ createBranch exec_ok JUndefined (JBool false) JUndefined (JStr "/work")
     = MkW (Rejected (JStr "Invalid args: undefined")) [].
Proof.
  split.
  - apply (proj1 (git_helpers_reject_invalid_arguments
                    exec_ok JUndefined (JBool false) JUndefined (JStr ""))).
    reflexivity.
  - apply (proj2 (git_helpers_reject_invalid_arguments
                    exec_ok JUndefined (JBool false) JUndefined (JStr "/work"))).
    left. reflexivity.
Defined.

(** The end-to-end run of the sibling path: the milestones of [a] are
    listed, the failure of [b] is logged, and the listing resolves. *)
Lemma listMilestones_two_repositories :
  result (listMilestones two_repos [] (JStr "acme"))
  = Fulfilled [("1.0", [milestone 7 "1.0"])]
  /\ ConsoleError "error retrieving milestones for b Error: Not Found"
     ∈ trace (listMilestones two_repos [] (JStr "acme")).
Proof. vm_compute. split; [reflexivity|]. repeat constructor. Qed.

(** [deleteMilestones] on the same organisation: the milestones of [b]
    cannot be listed, so the fan-out is never settled. *)
Lemma deleteMilestones_two_repositories :
  result (deleteMilestones two_repos deletion_succeeds [] (JStr "acme")
                           (JStr "1.0"))
  = Pending.
Proof. vm_compute. reflexivity. Qed.
End Witnesses.

(** ** The further properties at concrete inputs *)

Section FurtherWitnesses.
Import JS Eff Q Regex GitHelper GithubClient Pmtool Notions Examples.

Lemma git_sequences_stop_at_the_first_failure_witness :
  (execs (trace (resetToMaster (exec_fails_on "git checkout master") JUndefined
                               (JBool false) (JStr "/work/on-core")))
   = [Exec "git fetch --all --prune " (JStr "/work/on-core");
      Exec "git checkout master" (JStr "/work/on-core")]
   /\ result (resetToMaster (exec_fails_on "git checkout master") JUndefined
                            (JBool false) (JStr "/work/on-core"))
      = Rejected (JErr "Error running command: git checkout master : (1) fatal"))
  /\ (execs (trace (createBranch (exec_fails_on "git checkout master") JUndefined
                                 (JBool false) (JStr "release-1.0")
                                 (JStr "/work/on-core")))
      = [Exec "git checkout -b release-1.0" (JStr "/work/on-core");
         Exec "git push origin release-1.0" (JStr "/work/on-core")]
      /\ result (createBranch (exec_fails_on "git checkout master") JUndefined
                              (JBool false) (JStr "release-1.0")
                              (JStr "/work/on-core"))
         = Fulfilled (Subprocess.ExecResult JNull ("master" +:+ String "010" "") "")).
Proof.
  destruct (git_sequences_stop_at_the_first_failure
              (exec_fails_on "git checkout master") JUndefined (JBool false)
              (JStr "release-1.0") (JStr "/work/on-core") eq_refl)
    as [Hreset Hbranch].
  split; [exact Hreset|exact (Hbranch eq_refl)].
Defined.


Lemma updatePackageToBranch_stops_at_the_first_failure_witness :
  let run := updatePackageToBranch
               (exec_fails_on "git commit -a -m 'release-1.0'") JUndefined
               (JBool false) read_ok (parse_as manifest) write_ok
               (JStr "release-1.0") (JStr "/work/on-http") in
  FsWrite "/work/on-http/package.json"
          (result (rewrite_manifest (JStr "/work/on-http") (JStr "release-1.0")
                                    (JBool false) manifest))
  ∈ trace run
  /\ result run
     = Rejected (JErr ("Error running command: git commit -a -m 'release-1.0'"
                       +:+ " : (1) fatal"))
  /\ execs (trace run)
     = [Exec "git commit -a -m 'release-1.0'" (JStr "/work/on-http")].
Proof.
  exact (updatePackageToBranch_stops_at_the_first_failure
           (exec_fails_on "git commit -a -m 'release-1.0'") JUndefined
           (JBool false) read_ok (parse_as manifest) write_ok
           (JStr "release-1.0") (JStr "/work/on-http") eq_refl eq_refl).
Defined.

Lemma status_helpers_resolve_with_the_output_witness :
  result (branchStatus (exec_fails_on "git status -s ") JUndefined (JBool false)
                       (JStr "/work/on-core"))
  = Rejected (JErr "Error running command: git status -s  : (1) fatal")
  /\ exists name pre post,
      result (currentBranch (exec_fails_on "git status -s ") JUndefined
                            (JBool false) (JStr "/work/on-core"))
      = Fulfilled name
      /\ list_ascii_of_string ("master" +:+ String "010" "")
         = pre ++ list_ascii_of_string name ++ post
      /\ Forall (fun c => is_space c = true) pre
      /\ Forall (fun c => is_space c = true) post
      /\ (forall c rest, list_ascii_of_string name = c :: rest ->
                         is_space c = false)
      /\ (forall c front, list_ascii_of_string name = front ++ [c] ->
                          is_space c = false).
Proof.
  destruct (status_helpers_resolve_with_the_output
              (exec_fails_on "git status -s ") JUndefined (JBool false)
              (JStr "/work/on-core") eq_refl) as (Hstatus & _ & Hbranch).
  split; [exact Hstatus|exact (Hbranch eq_refl)].
Defined.


Lemma paged_fetch_resolves_only_with_every_page_witness :
  exists first pages,
    three_pages (repos_options (JStr "acme") JUndefined JUndefined) = CbOk first
    /\ Forall2 (fun i p =>
                  three_pages (repos_options (JStr "acme") (further_per_page first)
                                             (JNum i)) = CbOk p)
               (further_pages first) pages
    /\ [repo 1 "a"; repo 2 "b"; repo 3 "c"; repo 4 "d"]
       = with_id first ++ concat (map with_id pages).
Proof.
  exact (proj1 (paged_fetch_resolves_only_with_every_page three_pages [1; 0])
               (JStr "acme") [repo 1 "a"; repo 2 "b"; repo 3 "c"; repo 4 "d"]
               eq_refl).
Defined.

Lemma paged_fetch_requests_each_page_once_witness :
  trace (allRepos page3_fails [1; 0] (JStr "acme"))
  = [ApiCall (ReposGetFromOrg (JStr "acme") (JNum 100) (JNum 1));
     ApiCall (ReposGetFromOrg (JStr "acme") (JStr "2") (JNum 2));
     ApiCall (ReposGetFromOrg (JStr "acme") (JStr "2") (JNum 3))]
  /\ trace (allIssues three_pages [1; 0] (JStr "acme") (JStr "")
                      JUndefined JUndefined JUndefined)
     = [ApiCall (IssuesRepoIssues (JStr "acme") (JStr "") (JNum 100) (JNum 1)
                                  JUndefined JUndefined JUndefined)].
Proof.
  destruct (paged_fetch_requests_each_page_once page3_fails [1; 0])
    as (Hrepos & _).
  destruct (paged_fetch_requests_each_page_once three_pages [1; 0])
    as (_ & _ & Hguard & _).
  split.
  - exact (Hrepos (JStr "acme") page1 eq_refl).
  - exact (Hguard (JStr "acme") (JStr "") JUndefined JUndefined JUndefined
                  (or_intror eq_refl)).
Defined.

Lemma paged_fetch_stops_at_page_one_witness :
  allRepos one_page [] (JStr "acme")
  = MkW (Fulfilled [repo 1 "a"])
        [ApiCall (ReposGetFromOrg (JStr "acme") (JNum 100) (JNum 1))].
Proof.
  apply (proj1 (paged_fetch_stops_at_page_one one_page [] single_page
                  (or_intror (ex_intro _ (Link (Some 1%Z) (JStr "100"))
                                (conj eq_refl
                                   (or_intror (ex_intro _ 1%Z
                                      (conj eq_refl (Z.le_refl 1)))))))) (JStr "acme")).
  reflexivity.
Defined.

Lemma fan_outs_send_one_request_per_repository_witness :
  api_calls (trace (createLabels two_repos create_in_a [] (JStr "acme") (JStr "bug")))
  = [ReposGetFromOrg (JStr "acme") (JNum 100) (JNum 1);
     IssuesCreateLabel (JStr "acme") (JStr "a") (JStr "bug") (JStr "ffffff");
     IssuesCreateLabel (JStr "acme") (JStr "b") (JStr "bug") (JStr "ffffff")].
Proof.
  exact (proj1 (fan_outs_send_one_request_per_repository
                  two_repos create_in_a [] (JStr "acme") (JStr "bug") (JStr "1.0")
                  [repo 1 "a"; repo 2 "b"] eq_refl)).
Defined.

Lemma fan_outs_stay_pending_when_the_listing_fails_witness :
  createLabels nothing_answers create_in_a [] (JStr "acme") (JStr "bug")
  = MkW Pending [ApiCall (ReposGetFromOrg (JStr "acme") (JNum 100) (JNum 1))]
  /\ loadAllIssues nothing_answers [] (fun _ => []) [] (JStr "acme")
     = MkW Pending [ApiCall (ReposGetFromOrg (JStr "acme") (JNum 100) (JNum 1))].
Proof.
  destruct (fan_outs_stay_pending_when_the_listing_fails
              nothing_answers create_in_a [] [] [] (fun _ => [])
              (JStr "acme") (JStr "bug") (JStr "1.0"))
    as (_ & _ & Hcreate & _ & _ & _ & Hload).
  - intros repoList. discriminate.
  - split; [exact Hcreate|exact Hload].
Defined.

Lemma loadAllIssues_joins_the_repositories_witness :
  result (loadAllIssues two_repos_issues [] (fun _ => []) [1; 0] (JStr "acme"))
  = Fulfilled [issue 10 "crash"; issue 20 "typo"].
Proof.
  apply (proj1 (loadAllIssues_joins_the_repositories
                  two_repos_issues [] [1; 0] (fun _ => []) (JStr "acme")
                  [repo 1 "a"; repo 2 "b"] eq_refl)
               [[issue 10 "crash"]; [issue 20 "typo"]]).
  - repeat constructor.
  - apply perm_swap.
Defined.



Lemma issueShortForm_names_repository_and_number_witness :
  issueShortForm "https://github.com/renasar/renasar-pxe/issues/478"
  = "renasar-pxe#478"
  /\ issueShortForm "" = "undefined#undefined".
Proof.
  destruct (issueShortForm_names_repository_and_number
              "renasar" "renasar-pxe" "478" "") as [Hurl Hshort].
  split.
  - apply Hurl; apply (bool_decide_unpack _); vm_compute; exact I.
  - apply Hshort. apply not_elem_of_nil.
Defined.




Lemma deleteMilestones_never_settles_witness :
  result (deleteMilestones two_repos deletion_succeeds [] (JStr "acme") (JStr "1.0"))
  = Pending.
Proof.
  apply (deleteMilestones_never_settles
           two_repos deletion_succeeds [] (JStr "acme") (JStr "1.0")
           [repo 1 "a"; repo 2 "b"] (repo 2 "b") not_found).
  - reflexivity.
  - apply elem_of_cons. right. apply list_elem_of_here.
  - reflexivity.
Defined.

Lemma mutating_fan_outs_keep_only_the_last_outcome_witness :
  result (deleteLabels two_repos create_in_a [] (JStr "acme") (JStr "bug"))
  = Fulfilled [("[object Object]", StateRejected not_found)]
  /\ result (createLabels two_repos deletion_succeeds [] (JStr "acme") (JStr "bug"))
     = Fulfilled [("[object Object]", StateFulfilled (JBool true))].
Proof.
  split.
  - exact (proj1 (proj2 (mutating_fan_outs_keep_only_the_last_outcome
                           two_repos create_in_a [] (JStr "acme") (JStr "bug")
                           (JStr "1.0") [repo 1 "a"; repo 2 "b"] eq_refl))).
  - exact (proj1 (mutating_fan_outs_keep_only_the_last_outcome
                    two_repos deletion_succeeds [] (JStr "acme") (JStr "bug")
                    (JStr "1.0") [repo 1 "a"; repo 2 "b"] eq_refl)).
Defined.
End FurtherWitnesses.
